(** * Line sorters of Notepad++ (PowerEditor/src/MISC/Common/Sorters.h)

    A shallow embedding of the four line sorters ([LexicographicSorter],
    [IntegerSorter], [DecimalCommaSorter], [DecimalDotSorter]) and of the
    shared [NumericSorter<T_Num>::sort] scaffolding, followed by the
    properties of the sorters that the specification states.

    Conventions of the embedding:
    - [generic_string] is [std::wstring]: a list of [wchar_t] code units;
    - a [size_t] line index is a [nat] (it never exceeds [lines.size()]);
    - [long long] is a [Z] kept inside the signed 64-bit range by [stoll];
    - [double] is an IEEE binary64 value ([spec_float] with precision 53);
    - a C++ exception is an explicit constructor of the result type;
    - [std::sort] is a parameter constrained by the guarantees of the C++
      standard; GNU libstdc++'s implementation is embedded as well and
      shown to give these guarantees. *)

From Stdlib Require Import Ascii String.
From Stdlib Require Import ZArith NArith List Bool Lia.
From Stdlib Require Import Permutation Sorted.
From Stdlib Require Import Floats.SpecFloat.
Import ListNotations.

Local Open Scope Z_scope.

(** ** Strings *)

Definition wchar_t := N.
Definition generic_string := list wchar_t.

(** The [TEXT("...")] macro: a literal as a wide string. *)
Definition TEXT (s : string) : generic_string :=
  map N_of_ascii (list_ascii_of_string s).

Definition wmem (c : wchar_t) (chars : generic_string) : bool :=
  existsb (N.eqb c) chars.

(** [input.find_first_not_of(chars)]; [None] is [std::string::npos]. *)
Fixpoint find_first_not_of (input chars : generic_string) : option nat :=
  match input with
  | [] => None
  | c :: rest =>
      if wmem c chars then option_map S (find_first_not_of rest chars)
      else Some 0%nat
  end.

(** [a.compare(b)]: the code units are compared one by one, a proper prefix
    is smaller; the result is negative, zero or positive. *)
Fixpoint compare (a b : generic_string) : Z :=
  match a, b with
  | [], [] => 0
  | [], _ :: _ => -1
  | _ :: _, [] => 1
  | x :: a', y :: b' =>
      match N.compare x y with
      | Lt => -1
      | Gt => 1
      | Eq => compare a' b'
      end
  end.

(** The literal [TEXT(" \t\r\n")]. *)
Definition blanks : generic_string := [32; 9; 13; 10]%N.

(** Modelled from the spec: [stringTakeWhileAdmissable] (Common.cpp) is not
    part of the sources at hand.  The admissibility filter "takes the maximal
    prefix of the line consisting only of these characters". *)
Fixpoint stringTakeWhileAdmissable (input admissable : generic_string)
  : generic_string :=
  match input with
  | [] => []
  | c :: rest =>
      if wmem c admissable then c :: stringTakeWhileAdmissable rest admissable
      else []
  end.

Fixpoint starts_with (search subject : generic_string) : bool :=
  match search, subject with
  | [], _ => true
  | _ :: _, [] => false
  | x :: search', y :: subject' => N.eqb x y && starts_with search' subject'
  end.

Fixpoint replace_from (skip : nat) (subject search replace : generic_string)
  : generic_string :=
  match subject with
  | [] => []
  | c :: rest =>
      match skip with
      | S k => replace_from k rest search replace
      | O =>
          if negb (Nat.eqb (length search) 0) && starts_with search subject
          then replace ++ replace_from (length search - 1) rest search replace
          else c :: replace_from 0 rest search replace
      end
  end.

(** Modelled from the spec: [stringReplace] (Common.cpp) is not part of the
    sources at hand.  "After extraction, every comma is rewritten to a
    period": every occurrence of [search], left to right, becomes
    [replace]. *)
Definition stringReplace (subject search replace : generic_string)
  : generic_string :=
  replace_from 0 subject search replace.

(** ** Conversions to numbers *)

(** The outcome of [convertStringToNumber]: a number, or one of the two
    exceptions its contract names. *)
Inductive conversion (T : Type) : Type :=
  | Converted (x : T)
  | invalid_argument
  | out_of_range.
Arguments Converted {T} x.
Arguments invalid_argument {T}.
Arguments out_of_range {T}.

Definition converts {T : Type} (c : conversion T) : bool :=
  match c with
  | Converted _ => true
  | _ => false
  end.

(** [isspace] of the C locale: space, \t, \n, \v, \f, \r. *)
Definition isspace (c : wchar_t) : bool :=
  (N.eqb c 32 || (N.leb 9 c && N.leb c 13))%N.

Definition isdigit (c : wchar_t) : bool := (N.leb 48 c && N.leb c 57)%N.

Fixpoint skip_whitespace (s : generic_string) : generic_string :=
  match s with
  | c :: rest => if isspace c then skip_whitespace rest else s
  | [] => []
  end.

(** An optional sign; the flag tells whether it was a minus. *)
Definition parse_sign (s : generic_string) : bool * generic_string :=
  match s with
  | c :: rest =>
      if N.eqb c 45%N then (true, rest)
      else if N.eqb c 43%N then (false, rest)
      else (false, s)
  | [] => (false, [])
  end.

(** The longest run of decimal digits at the front, and what follows it. *)
Fixpoint span_digits (s : generic_string) : generic_string * generic_string :=
  match s with
  | c :: rest =>
      if isdigit c
      then let (ds, tl) := span_digits rest in (c :: ds, tl)
      else ([], s)
  | [] => ([], [])
  end.

Definition digit_value (c : wchar_t) : Z := Z.of_N c - 48.

Definition digits_value (ds : generic_string) : Z :=
  fold_left (fun acc c => 10 * acc + digit_value c) ds 0.

Definition LLONG_MIN : Z := - 2 ^ 63.
Definition LLONG_MAX : Z := 2 ^ 63 - 1.

(** [std::stoll(input)], that is [wcstoll(input, &end, 10)] wrapped as the
    standard library does: leading white space is skipped, an optional sign
    and the longest run of digits are read, whatever follows is ignored;
    [invalid_argument] when no digit was read, [out_of_range] when the value
    does not fit a [long long]. *)
Definition stoll (input : generic_string) : conversion Z :=
  let (negative, s) := parse_sign (skip_whitespace input) in
  let (ds, _) := span_digits s in
  match ds with
  | [] => invalid_argument
  | _ =>
      let v := if negative then - digits_value ds else digits_value ds in
      if (LLONG_MIN <=? v) && (v <=? LLONG_MAX) then Converted v
      else out_of_range
  end.

(** IEEE binary64. *)
Definition double := spec_float.

Definition double_lt (a b : double) : bool := SFltb a b.

(** The binary64 value nearest to [m / 10 ^ k] (ties to even), signed. *)
Definition decimal_to_double (negative : bool) (m : Z) (k : nat) : double :=
  if m =? 0 then S754_zero negative
  else
    let '(mz, ez, lz) := SFdiv_core_binary 53 1024 m 0 (10 ^ Z.of_nat k) 0 in
    binary_round_aux 53 1024 negative mz ez lz.

(** Modelled from the spec: [stodLocale] (Common.cpp) is not part of the
    sources at hand.  "Conversion parses the normalized text as a 64-bit
    floating-point value under a fixed, locale-independent numeric convention
    (period as decimal separator, no grouping separators).  Malformed or
    out-of-range text raises the same conversion failure."  As for [stoll],
    leading white space is skipped and the text after the numeral is ignored.
    A numeral is out of range when it rounds to an infinity, or is not zero
    and rounds to zero. *)
Definition stodLocale (str : generic_string) : conversion double :=
  let (negative, s) := parse_sign (skip_whitespace str) in
  let (int_part, s1) := span_digits s in
  let frac_part :=
    match s1 with
    | 46%N :: s2 => fst (span_digits s2)
    | _ => []
    end in
  match int_part ++ frac_part with
  | [] => invalid_argument
  | ds =>
      let m := digits_value ds in
      match decimal_to_double negative m (length frac_part) with
      | S754_infinity _ | S754_nan => out_of_range
      | S754_zero sg => if m =? 0 then Converted (S754_zero sg) else out_of_range
      | v => Converted v
      end
  end.

(** ** [std::sort]

    The sorters call [std::sort] of the C++ standard library.  What the
    standard guarantees of it is the contract below; the sorters are
    parameterised by an implementation. *)

Definition std_sort_t : Type :=
  forall A : Type, (A -> A -> bool) -> list A -> list A.

(** [comp] induces a strict weak ordering on the values of [l]. *)
Record strict_weak_ordering {A : Type} (comp : A -> A -> bool) (l : list A)
  : Prop := {
  swo_irrefl : forall x, In x l -> comp x x = false;
  swo_trans : forall x y z, In x l -> In y l -> In z l ->
      comp x y = true -> comp y z = true -> comp x z = true;
  swo_incomparable : forall x y z, In x l -> In y l -> In z l ->
      comp x y = false -> comp y x = false ->
      comp y z = false -> comp z y = false ->
      comp x z = false /\ comp z x = false
}.

(** No element is smaller than an element before it. *)
Definition sorted_by {A : Type} (comp : A -> A -> bool) (l : list A) : Prop :=
  StronglySorted (fun a b => comp b a = false) l.

(** The guarantee of the standard: under a strict weak ordering the range is
    rearranged (a permutation) into non-descending order.  Nothing is said
    of the relative order of equivalent elements. *)
Definition std_sort_spec (std_sort : std_sort_t) : Prop :=
  forall (A : Type) (comp : A -> A -> bool) (l : list A),
    strict_weak_ordering comp l ->
    Permutation l (std_sort A comp l) /\ sorted_by comp (std_sort A comp l).

(** ** The sorters *)

(** What a call of [ISorter::sort] produces: the returned vector, or the
    line index that [NumericSorter::sort] throws. *)
Inductive sort_result : Type :=
  | Returned (output : list generic_string)
  | Thrown (lineIndex : nat).

(** The virtual members of [NumericSorter<T_Num>], with [operator<] of
    [T_Num]. *)
Record NumericSorter (T_Num : Type) : Type := {
  less : T_Num -> T_Num -> bool;
  prepareStringForConversion : generic_string -> generic_string;
  convertStringToNumber : generic_string -> conversion T_Num
}.
Arguments less {T_Num} _ _ _.
Arguments prepareStringForConversion {T_Num} _ _.
Arguments convertStringToNumber {T_Num} _ _.

(** [NumericSorter::considerStringEmpty]. *)
Definition considerStringEmpty (input : generic_string) : bool :=
  match find_first_not_of input blanks with
  | None => true
  | Some _ => false
  end.

(** State of the first loop of [NumericSorter::sort] when it ends. *)
Inductive loop_result (T_Num : Type) : Type :=
  | LoopDone (nonEmptyInputAsNumbers : list (nat * T_Num))
             (empties : list generic_string)
  | LoopThrow (lineIndex : nat).
Arguments LoopDone {T_Num} _ _.
Arguments LoopThrow {T_Num} _.

Section NumericSorterSort.
Context {T_Num : Type}.
Variable this : NumericSorter T_Num.

(** The lambda handed to [std::sort]: [a.second > b.second] when
    descending, [a.second < b.second] otherwise. *)
Definition numeric_comp (descending : bool) (a b : nat * T_Num) : bool :=
  if descending then less this (snd b) (snd a)
  else less this (snd a) (snd b).

(** The loop over [lineIndex], from [lineIndex] on, [rest] being the lines
    not yet visited. *)
Fixpoint convert_lines (lineIndex : nat) (rest : list generic_string)
    (nonEmptyInputAsNumbers : list (nat * T_Num))
    (empties : list generic_string) : loop_result T_Num :=
  match rest with
  | [] => LoopDone nonEmptyInputAsNumbers empties
  | originalLine :: rest' =>
      let preparedLine := prepareStringForConversion this originalLine in
      if considerStringEmpty preparedLine
      then convert_lines (S lineIndex) rest' nonEmptyInputAsNumbers
             (empties ++ [originalLine])
      else
        match convertStringToNumber this preparedLine with
        | Converted number =>
            convert_lines (S lineIndex) rest'
              (nonEmptyInputAsNumbers ++ [(lineIndex, number)]) empties
        | _ => LoopThrow lineIndex
        end
  end.

Variable std_sort : std_sort_t.

(** [NumericSorter<T_Num>::sort].  The index of [lines[sortedNumber.first]]
    is the index of a candidate line, hence inside [lines]. *)
Definition NumericSorter_sort (isDescending : bool)
    (lines : list generic_string) : sort_result :=
  match convert_lines 0 lines [] [] with
  | LoopThrow lineIndex => Thrown lineIndex
  | LoopDone nonEmptyInputAsNumbers empties =>
      let sorted :=
        std_sort _ (numeric_comp isDescending) nonEmptyInputAsNumbers in
      let output := if negb isDescending then empties else [] in
      let output :=
        output ++ map (fun sortedNumber => nth (fst sortedNumber) lines [])
                      sorted in
      let output := output ++ (if isDescending then empties else []) in
      Returned output
  end.
End NumericSorterSort.

(** The lambda of [LexicographicSorter::sort]. *)
Definition lexicographic_comp (descending : bool) (a b : generic_string)
  : bool :=
  if descending then compare a b >? 0 else compare a b <? 0.

(** [LexicographicSorter::sort]. *)
Definition LexicographicSorter_sort (std_sort : std_sort_t)
    (isDescending : bool) (lines : list generic_string) : sort_result :=
  Returned (std_sort _ (lexicographic_comp isDescending) lines).

Definition IntegerSorter : NumericSorter Z := {|
  less := Z.ltb;
  prepareStringForConversion := fun input =>
    stringTakeWhileAdmissable input (blanks ++ TEXT "0123456789-");
  convertStringToNumber := stoll
|}.

(** The locale handle [_usLocale] that both decimal sorters pass to
    [stodLocale] is the fixed convention built into [stodLocale] above. *)
Definition DecimalCommaSorter : NumericSorter double := {|
  less := double_lt;
  prepareStringForConversion := fun input =>
    let admissablePart :=
      stringTakeWhileAdmissable input (blanks ++ TEXT "0123456789,-") in
    stringReplace admissablePart (TEXT ",") (TEXT ".");
  convertStringToNumber := stodLocale
|}.

Definition DecimalDotSorter : NumericSorter double := {|
  less := double_lt;
  prepareStringForConversion := fun input =>
    stringTakeWhileAdmissable input (blanks ++ TEXT "0123456789.-");
  convertStringToNumber := stodLocale
|}.

(** The concrete classes behind the [ISorter] interface. *)
Inductive ISorter : Type :=
  | Lexicographic
  | Integer
  | DecimalComma
  | DecimalDot.

(** The virtual call [sorter->sort(lines)] on a sorter constructed with
    [isDescending]. *)
Definition sort (std_sort : std_sort_t) (sorter : ISorter)
    (isDescending : bool) (lines : list generic_string) : sort_result :=
  match sorter with
  | Lexicographic => LexicographicSorter_sort std_sort isDescending lines
  | Integer => NumericSorter_sort IntegerSorter std_sort isDescending lines
  | DecimalComma =>
      NumericSorter_sort DecimalCommaSorter std_sort isDescending lines
  | DecimalDot =>
      NumericSorter_sort DecimalDotSorter std_sort isDescending lines
  end.

(** ** Implementations of [std::sort] *)

(** A stable sort by insertion: the order that the specification asks for
    ("equal keys preserve original relative order").  It meets
    [std_sort_spec], see [stable_sort_conforms]. *)
Fixpoint stable_insert {A : Type} (comp : A -> A -> bool) (x : A)
    (l : list A) : list A :=
  match l with
  | [] => [x]
  | y :: l' => if comp x y then x :: l else y :: stable_insert comp x l'
  end.

Fixpoint stable_sort_rev {A : Type} (comp : A -> A -> bool) (l : list A)
  : list A :=
  match l with
  | [] => []
  | x :: l' => stable_insert comp x (stable_sort_rev comp l')
  end.

(** The elements are inserted from the first to the last, each one behind
    the elements it is not smaller than. *)
Definition stable_sort : std_sort_t :=
  fun A comp l => stable_sort_rev comp (rev l).

(** The same insertion sort taking the elements from the last to the first:
    it meets [std_sort_spec] as well, see [reversing_sort_conforms], and
    reverses the elements that compare equal. *)
Definition reversing_sort : std_sort_t :=
  fun A comp l => stable_sort_rev comp l.

(** GNU libstdc++ 12, [bits/stl_algo.h] and [bits/stl_heap.h]: introsort
    followed by an insertion sort.  Ranges are pairs of indices into the
    vector [v]; [d] stands for a read outside of the vector, which a valid
    comparison never causes; a [while] loop gets as fuel a bound on its
    number of rounds (the upward scan of a partition stays below [last], the
    other loops inside the vector). *)
Module Libstdcxx.
Section Algo.
Context {A : Type}.
Variable comp : A -> A -> bool.
Variable d : A.

Local Open Scope nat_scope.

Definition at_ (v : list A) (i : nat) : A := nth i v d.

Fixpoint assign (v : list A) (i : nat) (x : A) : list A :=
  match v, i with
  | [], _ => []
  | _ :: v', O => x :: v'
  | y :: v', S i' => y :: assign v' i' x
  end.

(** Outside of the vector, where a valid comparison never leads, nothing
    is swapped. *)
Definition iter_swap (v : list A) (i j : nat) : list A :=
  if (i <? length v) && (j <? length v)
  then assign (assign v i (at_ v j)) j (at_ v i)
  else v.

Definition move_median_to_first (v : list A) (result a b c : nat)
  : list A :=
  if comp (at_ v a) (at_ v b) then
    if comp (at_ v b) (at_ v c) then iter_swap v result b
    else if comp (at_ v a) (at_ v c) then iter_swap v result c
    else iter_swap v result a
  else if comp (at_ v a) (at_ v c) then iter_swap v result a
  else if comp (at_ v b) (at_ v c) then iter_swap v result c
  else iter_swap v result b.

(** [while (comp(first, pivot)) ++first;] *)
Fixpoint advance (fuel : nat) (v : list A) (first pivot : nat) : nat :=
  match fuel with
  | O => first
  | S fuel' =>
      if comp (at_ v first) (at_ v pivot)
      then advance fuel' v (S first) pivot
      else first
  end.

(** [while (comp(pivot, last)) --last;] *)
Fixpoint retreat (fuel : nat) (v : list A) (last pivot : nat) : nat :=
  match fuel with
  | O => last
  | S fuel' =>
      if comp (at_ v pivot) (at_ v last)
      then retreat fuel' v (pred last) pivot
      else last
  end.

Fixpoint unguarded_partition (fuel : nat) (v : list A)
    (first last pivot : nat) : list A * nat :=
  match fuel with
  | O => (v, first)
  | S fuel' =>
      let first := advance (last - first) v first pivot in
      let last := retreat (length v) v (pred last) pivot in
      if negb (first <? last) then (v, first)
      else unguarded_partition fuel' (iter_swap v first last)
             (S first) last pivot
  end.

Definition unguarded_partition_pivot (v : list A) (first last : nat)
  : list A * nat :=
  let mid := first + (last - first) / 2 in
  let v := move_median_to_first v first (first + 1) mid (last - 1) in
  unguarded_partition (length v) v (first + 1) last first.

Fixpoint push_heap (fuel : nat) (v : list A)
    (first holeIndex topIndex : nat) (value : A) : list A :=
  let parent := (holeIndex - 1) / 2 in
  match fuel with
  | O => assign v (first + holeIndex) value
  | S fuel' =>
      if (topIndex <? holeIndex) && comp (at_ v (first + parent)) value
      then push_heap fuel' (assign v (first + holeIndex)
                              (at_ v (first + parent)))
             first parent topIndex value
      else assign v (first + holeIndex) value
  end.

(** The first loop of [__adjust_heap]. *)
Fixpoint sift_down (fuel : nat) (v : list A)
    (first holeIndex secondChild len : nat) : list A * nat * nat :=
  match fuel with
  | O => (v, holeIndex, secondChild)
  | S fuel' =>
      if secondChild <? (len - 1) / 2 then
        let secondChild := 2 * (secondChild + 1) in
        let secondChild :=
          if comp (at_ v (first + secondChild))
               (at_ v (first + (secondChild - 1)))
          then secondChild - 1 else secondChild in
        sift_down fuel'
          (assign v (first + holeIndex) (at_ v (first + secondChild)))
          first secondChild secondChild len
      else (v, holeIndex, secondChild)
  end.

Definition adjust_heap (v : list A) (first holeIndex len : nat)
    (value : A) : list A :=
  let topIndex := holeIndex in
  let '(v, holeIndex, secondChild) :=
    sift_down len v first holeIndex holeIndex len in
  let '(v, holeIndex) :=
    if Nat.even len && (secondChild =? (len - 2) / 2) then
      let secondChild := 2 * (secondChild + 1) in
      (assign v (first + holeIndex) (at_ v (first + (secondChild - 1))),
       secondChild - 1)
    else (v, holeIndex) in
  push_heap len v first holeIndex topIndex value.

Definition pop_heap (v : list A) (first last result : nat) : list A :=
  let value := at_ v result in
  let v := assign v result (at_ v first) in
  adjust_heap v first 0 (last - first) value.

Fixpoint make_heap_from (v : list A) (first len parent : nat) : list A :=
  let v := adjust_heap v first parent len (at_ v (first + parent)) in
  match parent with
  | O => v
  | S parent' => make_heap_from v first len parent'
  end.

Definition make_heap (v : list A) (first last : nat) : list A :=
  if last - first <? 2 then v
  else make_heap_from v first (last - first) ((last - first - 2) / 2).

(** [while (last - first > 1) { --last; pop_heap(first, last, last); }],
    [n] being [last - first]. *)
Fixpoint sort_heap (v : list A) (first n : nat) : list A :=
  match n with
  | S (S _ as m) =>
      sort_heap (pop_heap v first (first + m) (first + m)) first m
  | _ => v
  end.

Fixpoint heap_select_from (n : nat) (v : list A) (first middle i : nat)
  : list A :=
  match n with
  | O => v
  | S n' =>
      let v :=
        if comp (at_ v i) (at_ v first) then pop_heap v first middle i
        else v in
      heap_select_from n' v first middle (S i)
  end.

Definition heap_select (v : list A) (first middle last : nat) : list A :=
  heap_select_from (last - middle) (make_heap v first middle)
    first middle middle.

Definition partial_sort (v : list A) (first middle last : nat) : list A :=
  sort_heap (heap_select v first middle last) first (middle - first).

(** The loop of [__unguarded_linear_insert]; at most [last] rounds. *)
Fixpoint linear_insert (fuel : nat) (v : list A) (last : nat) (val : A)
  : list A :=
  match fuel with
  | O => assign v last val
  | S fuel' =>
      let next := pred last in
      if comp val (at_ v next)
      then linear_insert fuel' (assign v last (at_ v next)) next val
      else assign v last val
  end.

Definition unguarded_linear_insert (v : list A) (last : nat) : list A :=
  linear_insert last v last (at_ v last).

(** [val = *i; move_backward(first, i, i + 1); *first = val;] *)
Definition move_to_first (v : list A) (first i : nat) : list A :=
  firstn first v ++ at_ v i :: firstn (i - first) (skipn first v)
    ++ skipn (S i) v.

Fixpoint insertion_sort_from (n : nat) (v : list A) (first i : nat)
  : list A :=
  match n with
  | O => v
  | S n' =>
      let v :=
        if comp (at_ v i) (at_ v first) then move_to_first v first i
        else unguarded_linear_insert v i in
      insertion_sort_from n' v first (S i)
  end.

Definition insertion_sort (v : list A) (first last : nat) : list A :=
  if first =? last then v
  else insertion_sort_from (last - (first + 1)) v first (first + 1).

Fixpoint unguarded_insertion_sort_from (n : nat) (v : list A) (i : nat)
  : list A :=
  match n with
  | O => v
  | S n' => unguarded_insertion_sort_from n' (unguarded_linear_insert v i)
              (S i)
  end.

Definition unguarded_insertion_sort (v : list A) (first last : nat)
  : list A :=
  unguarded_insertion_sort_from (last - first) v first.

Definition S_threshold : nat := 16.

Definition final_insertion_sort (v : list A) (first last : nat) : list A :=
  if S_threshold <? last - first then
    unguarded_insertion_sort
      (insertion_sort v first (first + S_threshold))
      (first + S_threshold) last
  else insertion_sort v first last.

(** Every round of the loop, and the recursive call in it, run with a
    smaller [depth_limit]. *)
Fixpoint introsort_loop (depth_limit : nat) (v : list A)
    (first last : nat) : list A :=
  if S_threshold <? last - first then
    match depth_limit with
    | O => partial_sort v first last last
    | S depth_limit' =>
        let (v, cut) := unguarded_partition_pivot v first last in
        let v := introsort_loop depth_limit' v cut last in
        introsort_loop depth_limit' v first cut
    end
  else v.

Definition sort_range (v : list A) (first last : nat) : list A :=
  if first =? last then v
  else
    final_insertion_sort
      (introsort_loop (Nat.log2 (last - first) * 2) v first last)
      first last.
End Algo.

(** [std::sort(v.begin(), v.end(), comp)]. *)
Definition sort : std_sort_t :=
  fun A comp v =>
    match v with
    | [] => []
    | d :: _ => sort_range comp d v 0 (length v)
    end.
End Libstdcxx.

(** ** Auxiliary notions for the statements *)

(** The position of a [double] that is not a NaN in the order of [<]:
    class (infinities, negative, zero, positive), then exponent, then
    mantissa.  Both zeros have the same position. *)
Definition double_rank (x : double) : Z * Z * Z :=
  match x with
  | S754_zero _ => (0, 0, 0)
  | S754_infinity s => (if s then -2 else 2, 0, 0)
  | S754_nan => (3, 0, 0)
  | S754_finite s m e => if s then (-1, - e, - Zpos m) else (1, e, Zpos m)
  end.

Definition rank_lt (a b : Z * Z * Z) : Prop :=
  let '(a1, a2, a3) := a in
  let '(b1, b2, b3) := b in
  a1 < b1 \/ (a1 = b1 /\ (a2 < b2 \/ (a2 = b2 /\ a3 < b3))).

Definition is_nan (x : double) : bool :=
  match x with
  | S754_nan => true
  | _ => false
  end.


Section LineNotions.
Context {T_Num : Type}.
Variable this : NumericSorter T_Num.

(** The line goes to [empties]. *)
Definition is_empty_line (line : generic_string) : bool :=
  considerStringEmpty (prepareStringForConversion this line).

(** What the conversion of the prepared line gives. *)
Definition line_number (line : generic_string) : conversion T_Num :=
  convertStringToNumber this (prepareStringForConversion this line).

(** The line is a candidate and its conversion throws. *)
Definition conversion_throws (line : generic_string) : bool :=
  negb (is_empty_line line) && negb (converts (line_number line)).

(** The comparison of [std::sort], read on the lines that carry the
    numbers. *)
Definition line_comp (descending : bool) (a b : generic_string) : bool :=
  match line_number a, line_number b with
  | Converted x, Converted y =>
      if descending then less this y x else less this x y
  | _, _ => false
  end.

(** Two candidates whose numbers compare equal. *)
Definition same_number (a b : generic_string) : bool :=
  negb (is_empty_line a) && negb (is_empty_line b)
  && converts (line_number a) && converts (line_number b)
  && negb (line_comp false a b) && negb (line_comp false b a).

(** [operator<] is a strict weak ordering on the numbers that the
    conversion can produce. *)
Definition ordered_numbers : Prop :=
  forall keys : list T_Num,
    (forall k, In k keys ->
       exists s, convertStringToNumber this s = Converted k) ->
    strict_weak_ordering (less this) keys.
End LineNotions.

(** The same notions for a sorter behind the interface; the lexicographic
    sorter sets no line aside and converts none. *)
Definition is_empty (sorter : ISorter) (line : generic_string) : bool :=
  match sorter with
  | Lexicographic => false
  | Integer => is_empty_line IntegerSorter line
  | DecimalComma => is_empty_line DecimalCommaSorter line
  | DecimalDot => is_empty_line DecimalDotSorter line
  end.

Definition conversion_fails (sorter : ISorter) (line : generic_string)
  : bool :=
  match sorter with
  | Lexicographic => false
  | Integer => conversion_throws IntegerSorter line
  | DecimalComma => conversion_throws DecimalCommaSorter line
  | DecimalDot => conversion_throws DecimalDotSorter line
  end.

(** [precedes sorter descending a b]: the sorter's comparison puts [a]
    strictly before [b]. *)
Definition precedes (sorter : ISorter) (descending : bool)
    (a b : generic_string) : bool :=
  match sorter with
  | Lexicographic => lexicographic_comp descending a b
  | Integer => line_comp IntegerSorter descending a b
  | DecimalComma => line_comp DecimalCommaSorter descending a b
  | DecimalDot => line_comp DecimalDotSorter descending a b
  end.

(** Lines that compare equal: equal text for the lexicographic sorter, equal
    number for the numeric ones. *)
Definition tied (sorter : ISorter) (a b : generic_string) : bool :=
  match sorter with
  | Lexicographic => compare a b =? 0
  | Integer => same_number IntegerSorter a b
  | DecimalComma => same_number DecimalCommaSorter a b
  | DecimalDot => same_number DecimalDotSorter a b
  end.

(** The output, as the lines set aside and the sorted candidates. *)
Definition assemble (descending : bool)
    (empties sorted : list generic_string) : list generic_string :=
  if descending then sorted ++ empties else empties ++ sorted.

(** Neither element is smaller than the other. *)
Definition equivalent {A : Type} (comp : A -> A -> bool) (x y : A) : Prop :=
  comp x y = false /\ comp y x = false.

Definition equivb {A : Type} (comp : A -> A -> bool) (x y : A) : bool :=
  negb (comp x y) && negb (comp y x).

(** ** Inputs of the examples *)

(** The example of the specification for the integer sorter. *)
Definition integer_example : list generic_string :=
  map TEXT ["10"; "2"; ""; "-5"]%string.

(** The example of the specification for the decimal-comma sorter. *)
Definition comma_example : list generic_string :=
  map TEXT ["3,5"; "1,25"; "abc"]%string.

(** A single line holding a lone minus sign. *)
Definition lone_minus : list generic_string := [TEXT "-"].

(** The characters that the sorter's [prepareStringForConversion] hands to
    [stringTakeWhileAdmissable]; the lexicographic sorter prepares
    nothing. *)
Definition admissable (sorter : ISorter) : generic_string :=
  match sorter with
  | Lexicographic => []
  | Integer => blanks ++ TEXT "0123456789-"
  | DecimalComma => blanks ++ TEXT "0123456789,-"
  | DecimalDot => blanks ++ TEXT "0123456789.-"
  end.

(** The admissible leading run of a line. *)
Definition leading_run (sorter : ISorter) (line : generic_string)
  : generic_string :=
  stringTakeWhileAdmissable line (admissable sorter).

Definition is_letter (c : wchar_t) : bool :=
  ((N.leb 65 c && N.leb c 90) || (N.leb 97 c && N.leb c 122))%N.

(** A numeric sorter whose [convertStringToNumber] is overridden. *)
Definition with_conversion {T_Num : Type} (this : NumericSorter T_Num)
    (conversion : generic_string -> conversion T_Num) : NumericSorter T_Num :=
  {| less := less this;
     prepareStringForConversion := prepareStringForConversion this;
     convertStringToNumber := conversion |}.

(** [sort], the conversions to [long long] and to [double] being
    overridden. *)
Definition sort_converting_with (std_sort : std_sort_t)
    (to_integer : generic_string -> conversion Z)
    (to_double : generic_string -> conversion double)
    (sorter : ISorter) (isDescending : bool) (lines : list generic_string)
  : sort_result :=
  match sorter with
  | Lexicographic => LexicographicSorter_sort std_sort isDescending lines
  | Integer =>
      NumericSorter_sort (with_conversion IntegerSorter to_integer)
        std_sort isDescending lines
  | DecimalComma =>
      NumericSorter_sort (with_conversion DecimalCommaSorter to_double)
        std_sort isDescending lines
  | DecimalDot =>
      NumericSorter_sort (with_conversion DecimalDotSorter to_double)
        std_sort isDescending lines
  end.

(** Stability: the lines tied with any given line come in the output in the
    order they have in the input. *)
Definition keeps_tied_order (sorter : ISorter)
    (lines out : list generic_string) : Prop :=
  forall x, filter (tied sorter x) out = filter (tied sorter x) lines.

(** Seventeen lines with the number 7, and what libstdc++'s [std::sort]
    makes of them. *)
Definition seventeen_sevens : list generic_string :=
  map TEXT ["7a"; "7b"; "7c"; "7d"; "7e"; "7f"; "7g"; "7h"; "7i"; "7j";
            "7k"; "7l"; "7m"; "7n"; "7o"; "7p"; "7q"]%string.

Definition seventeen_sevens_sorted : list generic_string :=
  map TEXT ["7i"; "7q"; "7p"; "7o"; "7n"; "7m"; "7l"; "7k"; "7j"; "7a";
            "7h"; "7g"; "7f"; "7e"; "7d"; "7c"; "7b"]%string.

(** Nine lines with the number 2, eight with the number 1 and an empty
    line, and what libstdc++'s [std::sort] makes of them in each
    direction. *)
Definition ones_and_twos : list generic_string :=
  map TEXT ["2 a"; "1 b"; "2 c"; "1 d"; "2 e"; "1 f"; "2 g"; "1 h"; "2 i";
            "1 j"; "2 k"; "1 l"; "2 m"; ""; "2 o"; "1 p"; "2 q"; "1 r"]%string.

Definition ones_and_twos_ascending : list generic_string :=
  map TEXT [""; "1 b"; "1 r"; "1 p"; "1 l"; "1 j"; "1 h"; "1 f"; "1 d";
            "2 g"; "2 i"; "2 e"; "2 k"; "2 m"; "2 o"; "2 c"; "2 q";
            "2 a"]%string.

Definition ones_and_twos_descending : list generic_string :=
  map TEXT ["2 a"; "2 c"; "2 q"; "2 e"; "2 g"; "2 o"; "2 i"; "2 m"; "2 k";
            "1 r"; "1 p"; "1 l"; "1 j"; "1 h"; "1 f"; "1 d"; "1 b";
            ""]%string.

(** Following the words of the specification (4.4, "parses the stripped
    text as a base-10 signed 64-bit integer"): the whole stripped text is a
    numeral, an optional minus sign and digits, white space being allowed
    around it. *)
Definition well_formed_integer (text : generic_string) : bool :=
  let s := skip_whitespace text in
  let s := match s with
           | 45%N :: rest => rest
           | _ => s
           end in
  let (ds, rest) := span_digits s in
  negb (Nat.eqb (length ds) 0) && forallb isspace rest.

(** [text] starts with a numeral of value [v]: white space, an optional
    minus sign, the longest run of digits, which is not empty. *)
Definition leading_numeral (text : generic_string) (v : Z) : Prop :=
  exists ws sign digits rest,
    text = ws ++ sign ++ digits ++ rest /\
    forallb isspace ws = true /\
    (sign = [] \/ sign = TEXT "-") /\
    digits <> [] /\
    forallb isdigit digits = true /\
    (forall c rest', rest = c :: rest' -> isdigit c = false) /\
    v = match sign with
        | [] => digits_value digits
        | _ => - digits_value digits
        end.

(** A line that starts with a date. *)
Definition date_line : generic_string := TEXT "2021-03-04".

(** The pairs that the loop of the integer sorter records on
    [integer_example]. *)
Definition integer_example_numbers : list (nat * Z) :=
  [(0%nat, 10); (1%nat, 2); (3%nat, -5)].

(** * Properties *)

(** ** Orderings and sorted lists *)

Lemma swo_asym {A : Type} (comp : A -> A -> bool) (l : list A) :
  strict_weak_ordering comp l ->
  forall x y, In x l -> In y l -> comp x y = true -> comp y x = false.
Proof.
  intros H x y Hx Hy Hxy.
  destruct (comp y x) eqn:Hyx; [|reflexivity].
  assert (E : comp x x = true) by now apply (swo_trans _ _ H x y x).
  rewrite (swo_irrefl _ _ H x Hx) in E. discriminate.
Qed.

Lemma swo_incl {A : Type} (comp : A -> A -> bool) (l l' : list A) :
  incl l' l -> strict_weak_ordering comp l -> strict_weak_ordering comp l'.
Proof.
  intros Hi [H1 H2 H3]. split.
  - intros x Hx. apply H1, Hi, Hx.
  - intros x y z Hx Hy Hz. apply H2; apply Hi; assumption.
  - intros x y z Hx Hy Hz. apply H3; apply Hi; assumption.
Qed.

Lemma swo_flip {A : Type} (comp : A -> A -> bool) (l : list A) :
  strict_weak_ordering comp l ->
  strict_weak_ordering (fun a b => comp b a) l.
Proof.
  intros [H1 H2 H3]. split.
  - exact H1.
  - intros x y z Hx Hy Hz Hxy Hyz. now apply (H2 z y x).
  - intros x y z Hx Hy Hz Hxy Hyx Hyz Hzy.
    destruct (H3 x y z Hx Hy Hz Hyx Hxy Hzy Hyz). now split.
Qed.

Lemma swo_ext {A : Type} (comp comp' : A -> A -> bool) (l : list A) :
  (forall x y, comp' x y = comp x y) ->
  strict_weak_ordering comp l -> strict_weak_ordering comp' l.
Proof.
  intros E [H1 H2 H3]. split.
  - intros x Hx. rewrite E. now apply H1.
  - intros x y z Hx Hy Hz. rewrite !E. now apply H2.
  - intros x y z Hx Hy Hz. rewrite !E. now apply H3.
Qed.

(** An ordering read through a projection [f] of the elements. *)
Lemma swo_map {A B : Type} (f : A -> B) (comp : B -> B -> bool)
    (l : list A) :
  strict_weak_ordering comp (map f l) ->
  strict_weak_ordering (fun a b => comp (f a) (f b)) l.
Proof.
  intros [H1 H2 H3]. split.
  - intros x Hx. apply H1. now apply in_map.
  - intros x y z Hx Hy Hz. apply H2; now apply in_map.
  - intros x y z Hx Hy Hz. apply H3; now apply in_map.
Qed.

(** If [x] is equivalent to [y] and [y] is smaller than [z], so is [x]. *)
Lemma swo_equiv_lt {A : Type} (comp : A -> A -> bool) (l : list A) :
  strict_weak_ordering comp l ->
  forall x y z, In x l -> In y l -> In z l ->
    comp x y = false -> comp y x = false -> comp y z = true ->
    comp x z = true.
Proof.
  intros H x y z Hx Hy Hz Hxy Hyx Hyz.
  destruct (comp x z) eqn:Hxz; [reflexivity|].
  destruct (comp z x) eqn:Hzx.
  - assert (E : comp y x = true) by now apply (swo_trans _ _ H y z x).
    congruence.
  - destruct (swo_incomparable _ _ H y x z Hy Hx Hz Hyx Hxy Hxz Hzx) as [E _].
    congruence.
Qed.

Lemma swo_lt_equiv {A : Type} (comp : A -> A -> bool) (l : list A) :
  strict_weak_ordering comp l ->
  forall x y z, In x l -> In y l -> In z l ->
    comp x y = true -> comp y z = false -> comp z y = false ->
    comp x z = true.
Proof.
  intros H x y z Hx Hy Hz Hxy Hyz Hzy.
  apply (swo_equiv_lt _ _ (swo_flip _ _ H) z y x); assumption.
Qed.

Lemma sorted_by_inv {A : Type} (comp : A -> A -> bool) (a : A)
    (l : list A) :
  sorted_by comp (a :: l) ->
  sorted_by comp l /\ forall y, In y l -> comp y a = false.
Proof.
  intros H. apply StronglySorted_inv in H. destruct H as [H1 H2].
  split; [exact H1|]. now apply Forall_forall.
Qed.

Lemma StronglySorted_app {A : Type} (R : A -> A -> Prop) (l1 l2 : list A) :
  StronglySorted R l1 -> StronglySorted R l2 ->
  (forall x y, In x l1 -> In y l2 -> R x y) ->
  StronglySorted R (l1 ++ l2).
Proof.
  induction l1 as [|a l1 IH]; intros H1 H2 H; simpl; [exact H2|].
  apply StronglySorted_inv in H1. destruct H1 as [H1 Ha].
  constructor.
  - apply IH; auto. intros x y Hx Hy. apply H; simpl; auto.
  - apply Forall_app. split; [exact Ha|].
    apply Forall_forall. intros y Hy. apply H; simpl; auto.
Qed.

Lemma StronglySorted_rev {A : Type} (R : A -> A -> Prop) (l : list A) :
  StronglySorted R l -> StronglySorted (fun a b => R b a) (rev l).
Proof.
  induction 1 as [|a l Hs IH Ha]; simpl; [constructor|].
  apply StronglySorted_app; [exact IH|repeat constructor|].
  intros x y Hx Hy. destruct Hy as [<-|[]].
  rewrite Forall_forall in Ha. apply Ha. now apply in_rev.
Qed.

Lemma StronglySorted_map_in {A B : Type} (R : A -> A -> Prop)
    (R' : B -> B -> Prop) (f : A -> B) (l : list A) :
  (forall a b, In a l -> In b l -> R a b -> R' (f a) (f b)) ->
  StronglySorted R l -> StronglySorted R' (map f l).
Proof.
  intros H Hs. induction Hs as [|a l Hs IH Ha]; simpl; [constructor|].
  constructor.
  - apply IH. intros x y Hx Hy. apply H; simpl; auto.
  - apply Forall_forall. intros y Hy. apply in_map_iff in Hy.
    destruct Hy as [b [<- Hb]]. rewrite Forall_forall in Ha.
    apply H; simpl; auto.
Qed.

(** ** The stable insertion sort meets the contract of [std::sort] *)

Lemma stable_insert_perm {A : Type} (comp : A -> A -> bool) (x : A)
    (l : list A) :
  Permutation (x :: l) (stable_insert comp x l).
Proof.
  induction l as [|y l IH]; simpl; [reflexivity|].
  destruct (comp x y); [reflexivity|].
  rewrite perm_swap. now constructor.
Qed.

Lemma stable_sort_rev_perm {A : Type} (comp : A -> A -> bool) (l : list A) :
  Permutation l (stable_sort_rev comp l).
Proof.
  induction l as [|x l IH]; simpl; [reflexivity|].
  rewrite <- stable_insert_perm. now constructor.
Qed.

Lemma stable_insert_sorted {A : Type} (comp : A -> A -> bool) (dom : list A)
    (x : A) (l : list A) :
  strict_weak_ordering comp dom -> In x dom -> incl l dom ->
  sorted_by comp l -> sorted_by comp (stable_insert comp x l).
Proof.
  intros H Hx. induction l as [|y l IH]; intros Hl Hs; simpl.
  - repeat constructor.
  - assert (Hy : In y dom) by (apply Hl; simpl; auto).
    assert (Hl' : incl l dom) by (intros z Hz; apply Hl; simpl; auto).
    destruct (sorted_by_inv _ _ _ Hs) as [Hs' Hall].
    destruct (comp x y) eqn:Hxy.
    + constructor; [exact Hs|]. apply Forall_forall. intros z [<-|Hz].
      * now apply (swo_asym _ _ H x y).
      * destruct (comp z x) eqn:Hzx; [|reflexivity].
        assert (E : comp z y = true) by (apply (swo_trans _ _ H z x y); auto).
        rewrite (Hall z Hz) in E. discriminate.
    + constructor; [now apply IH|]. apply Forall_forall. intros z Hz.
      apply (Permutation_in _ (Permutation_sym (stable_insert_perm comp x l)))
        in Hz.
      destruct Hz as [<-|Hz]; auto.
Qed.

Lemma stable_sort_rev_sorted {A : Type} (comp : A -> A -> bool)
    (dom l : list A) :
  strict_weak_ordering comp dom -> incl l dom ->
  sorted_by comp (stable_sort_rev comp l).
Proof.
  intros H. induction l as [|x l IH]; intros Hl; simpl; [constructor|].
  apply (stable_insert_sorted comp dom); auto.
  - apply Hl; simpl; auto.
  - intros z Hz. apply Hl. right.
    apply (Permutation_in _ (Permutation_sym (stable_sort_rev_perm comp l))).
    exact Hz.
  - apply IH. intros z Hz. apply Hl; simpl; auto.
Qed.

Lemma stable_sort_conforms : std_sort_spec stable_sort.
Proof.
  intros A comp l H. unfold stable_sort. split.
  - rewrite <- stable_sort_rev_perm. apply Permutation_rev.
  - apply (stable_sort_rev_sorted comp l); [exact H|].
    intros z Hz. now apply in_rev.
Qed.

Lemma reversing_sort_conforms : std_sort_spec reversing_sort.
Proof.
  intros A comp l H. unfold reversing_sort. split.
  - apply stable_sort_rev_perm.
  - apply (stable_sort_rev_sorted comp l); [exact H|apply incl_refl].
Qed.

(** ** The comparisons handed to [std::sort] are strict weak orderings *)

Lemma compare_refl (a : generic_string) : compare a a = 0.
Proof.
  induction a as [|x a IH]; simpl; [reflexivity|].
  now rewrite N.compare_refl.
Qed.

Lemma compare_antisym (a b : generic_string) : compare b a = - compare a b.
Proof.
  revert b. induction a as [|x a IH]; intros [|y b]; simpl; try reflexivity.
  rewrite (N.compare_antisym x y).
  destruct (N.compare x y); simpl; auto.
Qed.

Lemma compare_eq (a b : generic_string) : compare a b = 0 -> a = b.
Proof.
  revert b. induction a as [|x a IH]; intros [|y b]; simpl;
    try reflexivity; try discriminate.
  destruct (N.compare_spec x y) as [E|E|E]; try discriminate.
  intros H. subst. f_equal. now apply IH.
Qed.

Lemma compare_lt_trans (a b c : generic_string) :
  compare a b < 0 -> compare b c < 0 -> compare a c < 0.
Proof.
  revert b c. induction a as [|x a IH]; intros [|y b] [|z c]; simpl;
    try lia.
  destruct (N.compare_spec x y) as [E1|E1|E1];
    destruct (N.compare_spec y z) as [E2|E2|E2];
    destruct (N.compare_spec x z) as [E3|E3|E3]; subst; try lia.
  apply IH.
Qed.

Lemma lexicographic_comp_flip (a b : generic_string) :
  lexicographic_comp true a b = lexicographic_comp false b a.
Proof.
  unfold lexicographic_comp. rewrite (compare_antisym b a).
  destruct (compare a b >? 0) eqn:E1, (- compare a b <? 0) eqn:E2; lia.
Qed.

Lemma lexicographic_comp_swo (descending : bool)
    (l : list generic_string) :
  strict_weak_ordering (lexicographic_comp descending) l.
Proof.
  assert (H : strict_weak_ordering (lexicographic_comp false) l).
  { unfold lexicographic_comp. split.
    - intros x _. rewrite compare_refl. reflexivity.
    - intros x y z _ _ _ H1 H2. apply Z.ltb_lt.
      apply Z.ltb_lt in H1, H2. now apply (compare_lt_trans x y z).
    - intros x y z _ _ _ H1 H2 H3 H4.
      rewrite (compare_antisym x y) in H2.
      rewrite (compare_antisym y z) in H4.
      assert (x = y) by (apply compare_eq; lia).
      assert (y = z) by (apply compare_eq; lia).
      subst. rewrite compare_refl. split; reflexivity. }
  destruct descending; [|exact H].
  apply (swo_ext (fun a b => lexicographic_comp false b a)).
  - apply lexicographic_comp_flip.
  - now apply swo_flip.
Qed.

(** Lines that are neither smaller nor greater are the same text. *)
Lemma lexicographic_comp_total (descending : bool) (a b : generic_string) :
  lexicographic_comp descending a b = false ->
  lexicographic_comp descending b a = false -> a = b.
Proof.
  unfold lexicographic_comp. rewrite (compare_antisym a b).
  intros H1 H2. apply compare_eq. destruct descending; lia.
Qed.

Lemma Z_ltb_swo (l : list Z) : strict_weak_ordering Z.ltb l.
Proof.
  split.
  - intros x _. apply Z.ltb_irrefl.
  - intros x y z _ _ _ H1 H2. lia.
  - intros x y z _ _ _ H1 H2 H3 H4. lia.
Qed.

Lemma double_lt_rank (x y : double) :
  is_nan x = false -> is_nan y = false ->
  (double_lt x y = true <-> rank_lt (double_rank x) (double_rank y)).
Proof.
  unfold double_lt, SFltb.
  destruct x as [sx|sx| |sx mx ex], y as [sy|sy| |sy my ey]; simpl;
    intros Hx Hy; try discriminate;
    try (destruct sx); try (destruct sy); simpl;
    try (split; [discriminate|lia]); try (split; [lia|reflexivity]).
  - destruct (Z.compare_spec ex ey) as [E|E|E].
    + subst. change (Pos.compare_cont Eq mx my) with (Pos.compare mx my).
      destruct (Pos.compare_spec mx my) as [F|F|F]; simpl;
        (split; [try discriminate; lia|try reflexivity; lia]).
    + split; [discriminate|lia].
    + split; [lia|reflexivity].
  - destruct (Z.compare_spec ex ey) as [E|E|E].
    + subst. change (Pos.compare_cont Eq mx my) with (Pos.compare mx my).
      destruct (Pos.compare_spec mx my) as [F|F|F]; simpl;
        (split; [try discriminate; lia|try reflexivity; lia]).
    + split; [lia|reflexivity].
    + split; [discriminate|lia].
Qed.

Lemma double_lt_swo (l : list double) :
  (forall x, In x l -> is_nan x = false) ->
  strict_weak_ordering double_lt l.
Proof.
  intros Hl.
  assert (R : forall x y, In x l -> In y l ->
            (double_lt x y = true <-> rank_lt (double_rank x) (double_rank y)))
    by (intros x y Hx Hy; apply double_lt_rank; auto).
  assert (F : forall x y, In x l -> In y l ->
            (double_lt x y = false <->
             ~ rank_lt (double_rank x) (double_rank y))).
  { intros x y Hx Hy. rewrite <- (R x y Hx Hy).
    destruct (double_lt x y); split; congruence. }
  split.
  - intros x Hx. apply F; auto.
    destruct (double_rank x) as [[a b] c]. simpl. lia.
  - intros x y z Hx Hy Hz.
    rewrite (R x y), (R y z), (R x z) by assumption.
    destruct (double_rank x) as [[a b] c], (double_rank y) as [[a' b'] c'],
      (double_rank z) as [[a'' b''] c'']. simpl. lia.
  - intros x y z Hx Hy Hz.
    rewrite (F x y), (F y x), (F y z), (F z y), (F x z), (F z x)
      by assumption.
    destruct (double_rank x) as [[a b] c], (double_rank y) as [[a' b'] c'],
      (double_rank z) as [[a'' b''] c'']. simpl. lia.
Qed.

Lemma stodLocale_not_nan (s : generic_string) (x : double) :
  stodLocale s = Converted x -> is_nan x = false.
Proof.
  unfold stodLocale.
  destruct (parse_sign (skip_whitespace s)) as [negative s0].
  destruct (span_digits s0) as [int_part s1].
  destruct (int_part ++ _); [discriminate|].
  destruct (decimal_to_double _ _ _); try discriminate.
  - destruct (_ =? 0); [|discriminate]. intros [= <-]. reflexivity.
  - intros [= <-]. reflexivity.
Qed.

(** ** Filtering and rearranging *)

Lemma filter_length_perm {A : Type} (f : A -> bool) (l l' : list A) :
  Permutation l l' -> length (filter f l) = length (filter f l').
Proof.
  induction 1 as [|x l l' _ IH|x y l|l l' l'' _ IH1 _ IH2]; simpl.
  - reflexivity.
  - destruct (f x); simpl; now rewrite IH.
  - destruct (f x), (f y); reflexivity.
  - now rewrite IH1.
Qed.

Lemma filter_perm {A : Type} (f : A -> bool) (l l' : list A) :
  Permutation l l' -> Permutation (filter f l) (filter f l').
Proof.
  induction 1 as [|x l l' _ IH|x y l|l l' l'' _ IH1 _ IH2]; simpl.
  - constructor.
  - destruct (f x); [now constructor|exact IH].
  - destruct (f x), (f y); try reflexivity. apply perm_swap.
  - now rewrite IH1.
Qed.

Lemma filter_split_perm {A : Type} (f : A -> bool) (l : list A) :
  Permutation l (filter f l ++ filter (fun x => negb (f x)) l).
Proof.
  induction l as [|x l IH]; simpl; [constructor|].
  destruct (f x); simpl.
  - now constructor.
  - now apply Permutation_cons_app.
Qed.

Lemma filter_none {A : Type} (f : A -> bool) (l : list A) :
  (forall x, In x l -> f x = false) -> filter f l = [].
Proof.
  intros H. induction l as [|x l IH]; simpl; [reflexivity|].
  rewrite H by (simpl; auto). apply IH.
  intros y Hy. apply H. simpl; auto.
Qed.

Lemma filter_all {A : Type} (f : A -> bool) (l : list A) :
  (forall x, In x l -> f x = true) -> filter f l = l.
Proof.
  intros H. induction l as [|x l IH]; simpl; [reflexivity|].
  rewrite H by (simpl; auto). f_equal. apply IH.
  intros y Hy. apply H. simpl; auto.
Qed.

Lemma filter_nonempty_in {A : Type} (f : A -> bool) (l : list A) :
  (0 < length (filter f l))%nat -> exists x, In x l /\ f x = true.
Proof.
  destruct (filter f l) as [|x r] eqn:E; simpl; [lia|]. intros _.
  assert (H : In x (filter f l)) by (rewrite E; simpl; auto).
  apply filter_In in H. now exists x.
Qed.


(** ** libstdc++'s [std::sort] meets the contract *)

Module LibstdcxxFacts.
Import Libstdcxx.
Local Open Scope nat_scope.

Section Vectors.
Context {A : Type}.
Variable d : A.

Lemma assign_length (v : list A) (i : nat) (x : A) :
  length (assign v i x) = length v.
Proof.
  revert i. induction v as [|y v IH]; intros [|i]; simpl; auto.
Qed.

Lemma at_app_r (p s : list A) (x : A) :
  at_ d (p ++ x :: s) (length p) = x.
Proof.
  unfold at_. now rewrite nth_middle.
Qed.

Lemma at_app_l (p s : list A) (i : nat) :
  i < length p -> at_ d (p ++ s) i = at_ d p i.
Proof.
  intros H. unfold at_. now apply app_nth1.
Qed.

Lemma assign_app_r (p s : list A) (x y : A) :
  assign (p ++ x :: s) (length p) y = p ++ y :: s.
Proof.
  induction p as [|z p IH]; simpl; [reflexivity|]. now rewrite IH.
Qed.

Lemma assign_same (v : list A) (i : nat) :
  assign v i (at_ d v i) = v.
Proof.
  unfold at_. revert i.
  induction v as [|y v IH]; intros [|i]; simpl; try reflexivity.
  f_equal. apply IH.
Qed.

Lemma at_assign_other (v : list A) (i j : nat) (x : A) :
  i <> j -> at_ d (assign v i x) j = at_ d v j.
Proof.
  unfold at_. revert i j.
  induction v as [|y v IH]; intros [|i] [|j] H; simpl; try congruence;
    try reflexivity.
  apply IH. congruence.
Qed.

Lemma assign_assign_same (v : list A) (i : nat) (x y : A) :
  assign (assign v i x) i y = assign v i y.
Proof.
  revert i. induction v as [|z v IH]; intros [|i]; simpl; try reflexivity.
  f_equal. apply IH.
Qed.

Lemma assign_comm (v : list A) (i j : nat) (x y : A) :
  i <> j -> assign (assign v i x) j y = assign (assign v j y) i x.
Proof.
  revert i j.
  induction v as [|z v IH]; intros [|i] [|j] H; simpl; try congruence;
    try reflexivity.
  f_equal. apply IH. congruence.
Qed.

Lemma assign_cons_perm (v : list A) (i : nat) (a b : A) :
  i < length v ->
  Permutation (a :: assign v i b) (b :: assign v i a).
Proof.
  revert i. induction v as [|y v IH]; intros [|i] H; simpl in *; try lia.
  - apply perm_swap.
  - rewrite (perm_swap y a), (perm_swap y b). constructor.
    apply IH. lia.
Qed.

(** Exchanging what two positions hold rearranges the vector. *)
Lemma assign_swap_perm (v : list A) (i j : nat) (a b : A) :
  i <> j -> i < length v -> j < length v ->
  Permutation (assign (assign v i a) j b) (assign (assign v i b) j a).
Proof.
  revert i j. induction v as [|y v IH]; intros [|i] [|j] H Hi Hj;
    simpl in *; try lia.
  - now apply assign_cons_perm; lia.
  - apply Permutation_sym. now apply assign_cons_perm; lia.
  - constructor. apply IH; lia.
Qed.

(** Moving the content of [c] into the hole [h] and making [c] the hole
    rearranges the vector completed with the pending value. *)
Lemma hole_move_perm (v : list A) (h c : nat) (x : A) :
  h < length v -> c < length v ->
  Permutation (assign (assign v h (at_ d v c)) c x) (assign v h x).
Proof.
  intros Hh Hc. destruct (Nat.eq_dec h c) as [->|N].
  - now rewrite assign_assign_same.
  - rewrite assign_swap_perm by assumption.
    rewrite <- (at_assign_other v h c x N).
    now rewrite assign_same.
Qed.

Lemma iter_swap_perm (v : list A) (i j : nat) :
  Permutation v (iter_swap d v i j).
Proof.
  unfold iter_swap.
  destruct ((i <? length v) && (j <? length v)) eqn:E; [|reflexivity].
  apply andb_prop in E. destruct E as [Hi Hj].
  apply Nat.ltb_lt in Hi, Hj.
  rewrite hole_move_perm by assumption.
  now rewrite assign_same.
Qed.
End Vectors.

Section Rearranging.
Context {A : Type}.
Variable comp : A -> A -> bool.
Variable d : A.

Lemma move_median_to_first_perm (v : list A) (result a b c : nat) :
  Permutation v (move_median_to_first comp d v result a b c).
Proof.
  unfold move_median_to_first.
  repeat match goal with
         | |- context [if ?x then _ else _] => destruct x
         end; apply iter_swap_perm.
Qed.

Lemma unguarded_partition_perm (fuel : nat) :
  forall v first last pivot,
    Permutation v (fst (unguarded_partition comp d fuel v first last pivot)).
Proof.
  induction fuel as [|fuel IH]; intros v first last pivot; simpl;
    [reflexivity|].
  destruct (negb _); [reflexivity|].
  rewrite <- IH. apply iter_swap_perm.
Qed.

Lemma advance_bounds (fuel : nat) :
  forall v first pivot,
    first <= advance comp d fuel v first pivot <= first + fuel.
Proof.
  induction fuel as [|fuel IH]; intros v first pivot; simpl; [lia|].
  destruct (comp _ _); [|lia].
  specialize (IH v (S first) pivot). lia.
Qed.

Lemma retreat_le (fuel : nat) :
  forall v last pivot, retreat comp d fuel v last pivot <= last.
Proof.
  induction fuel as [|fuel IH]; intros v last pivot; simpl; [lia|].
  destruct (comp _ _); [|lia].
  specialize (IH v (pred last) pivot). lia.
Qed.

(** The cut lies inside the range. *)
Lemma unguarded_partition_cut (fuel : nat) :
  forall v first last pivot,
    first <= last ->
    first <= snd (unguarded_partition comp d fuel v first last pivot) <= last.
Proof.
  induction fuel as [|fuel IH]; intros v first last pivot H; simpl; [lia|].
  assert (B := advance_bounds (last - first) v first pivot).
  assert (R := retreat_le (length v) v (pred last) pivot).
  destruct (negb _) eqn:C; simpl; [lia|].
  apply negb_false_iff, Nat.ltb_lt in C.
  match goal with
  | |- _ <= snd (unguarded_partition _ _ _ ?v' ?f' ?l' _) <= _ =>
      specialize (IH v' f' l' pivot)
  end.
  lia.
Qed.

Lemma unguarded_partition_pivot_perm (v : list A) (first last : nat) :
  Permutation v (fst (unguarded_partition_pivot comp d v first last)).
Proof.
  unfold unguarded_partition_pivot.
  rewrite <- unguarded_partition_perm. apply move_median_to_first_perm.
Qed.

Lemma half_le (n : nat) : n / 2 <= n.
Proof.
  assert (H := Nat.Div0.mul_div_le n 2). lia.
Qed.

Lemma push_heap_step (fuel : nat) (v : list A)
    (first holeIndex topIndex : nat) (value : A) :
  push_heap comp d (S fuel) v first holeIndex topIndex value
  = if (topIndex <? holeIndex)
       && comp (at_ d v (first + (holeIndex - 1) / 2)) value
    then push_heap comp d fuel
           (assign v (first + holeIndex)
              (at_ d v (first + (holeIndex - 1) / 2)))
           first ((holeIndex - 1) / 2) topIndex value
    else assign v (first + holeIndex) value.
Proof.
  reflexivity.
Qed.

Lemma sift_down_step (fuel : nat) (v : list A)
    (first holeIndex secondChild len : nat) :
  sift_down comp d (S fuel) v first holeIndex secondChild len
  = if secondChild <? (len - 1) / 2 then
      let child :=
        if comp (at_ d v (first + 2 * (secondChild + 1)))
             (at_ d v (first + (2 * (secondChild + 1) - 1)))
        then 2 * (secondChild + 1) - 1 else 2 * (secondChild + 1) in
      sift_down comp d fuel
        (assign v (first + holeIndex) (at_ d v (first + child)))
        first child child len
    else (v, holeIndex, secondChild).
Proof.
  reflexivity.
Qed.

Lemma push_heap_perm (fuel : nat) :
  forall v first holeIndex topIndex value,
    first + holeIndex < length v ->
    Permutation (assign v (first + holeIndex) value)
      (push_heap comp d fuel v first holeIndex topIndex value).
Proof.
  induction fuel as [|fuel IH]; intros v first holeIndex topIndex value H;
    [reflexivity|].
  rewrite push_heap_step.
  destruct ((topIndex <? holeIndex) && _); [|reflexivity].
  assert (P := half_le (holeIndex - 1)).
  rewrite <- IH by (rewrite assign_length; lia).
  symmetry. apply hole_move_perm; lia.
Qed.

Lemma sift_down_perm (fuel : nat) :
  forall v first holeIndex secondChild len value v' holeIndex' secondChild',
    first + len <= length v -> holeIndex < len -> secondChild < len ->
    sift_down comp d fuel v first holeIndex secondChild len
      = (v', holeIndex', secondChild') ->
    Permutation (assign v (first + holeIndex) value)
      (assign v' (first + holeIndex') value) /\
    holeIndex' < len /\ length v' = length v.
Proof.
  induction fuel as [|fuel IH];
    intros v first holeIndex secondChild len value v' holeIndex' secondChild'
      Hlen Hh Hs E.
  - injection E as <- <- <-. auto.
  - rewrite sift_down_step in E.
    destruct (secondChild <? (len - 1) / 2) eqn:C.
    + apply Nat.ltb_lt in C.
      assert (B := Nat.Div0.mul_div_le (len - 1) 2).
      set (child := if comp (at_ d v (first + 2 * (secondChild + 1)))
                         (at_ d v (first + (2 * (secondChild + 1) - 1)))
                    then 2 * (secondChild + 1) - 1
                    else 2 * (secondChild + 1)) in *.
      cbv zeta in E.
      assert (Hc : child < len) by (unfold child; destruct (comp _ _); lia).
      apply (IH _ _ _ _ _ value) in E;
        try rewrite assign_length; try lia.
      destruct E as [P [H1 H2]]. rewrite assign_length in H2.
      split; [|auto]. rewrite <- P. symmetry.
      apply hole_move_perm; lia.
    + injection E as <- <- <-. auto.
Qed.

Lemma adjust_heap_perm (v : list A) (first holeIndex len : nat) (value : A) :
  first + len <= length v -> holeIndex < len ->
  Permutation (assign v (first + holeIndex) value)
    (adjust_heap comp d v first holeIndex len value).
Proof.
  intros Hlen Hh. unfold adjust_heap.
  destruct (sift_down comp d len v first holeIndex holeIndex len)
    as [[v1 h1] s1] eqn:E.
  destruct (sift_down_perm _ _ _ _ _ _ value _ _ _ Hlen Hh Hh E)
    as [P [H1 H2]].
  destruct (Nat.even len && (s1 =? (len - 2) / 2)) eqn:C.
  - apply andb_prop in C. destruct C as [Ev C].
    apply Nat.eqb_eq in C. apply Nat.even_spec in Ev. destruct Ev as [k Ek].
    assert (K : (len - 2) / 2 = k - 1).
    { replace (len - 2) with ((k - 1) * 2) by lia. apply Nat.div_mul. lia. }
    rewrite <- push_heap_perm by (rewrite assign_length; lia).
    rewrite P. symmetry. apply hole_move_perm; lia.
  - rewrite <- push_heap_perm by lia. exact P.
Qed.

Lemma pop_heap_perm (v : list A) (first last result : nat) :
  first < last -> last <= length v -> result < length v ->
  Permutation v (pop_heap comp d v first last result).
Proof.
  intros H1 H2 H3. unfold pop_heap.
  rewrite <- adjust_heap_perm by (rewrite ?assign_length; lia).
  rewrite Nat.add_0_r.
  rewrite hole_move_perm by lia. now rewrite assign_same.
Qed.

Lemma make_heap_from_perm (parent : nat) :
  forall v first len,
    first + len <= length v -> parent < len ->
    Permutation v (make_heap_from comp d v first len parent).
Proof.
  induction parent as [|parent IH]; intros v first len H1 H2; simpl.
  - rewrite <- adjust_heap_perm by lia. now rewrite assign_same.
  - assert (P : Permutation v
                  (adjust_heap comp d v first (S parent) len
                     (at_ d v (first + S parent)))).
    { rewrite <- adjust_heap_perm by lia. now rewrite assign_same. }
    rewrite <- IH; [exact P| |lia].
    now rewrite <- (Permutation_length P).
Qed.

Lemma make_heap_perm (v : list A) (first last : nat) :
  last <= length v -> Permutation v (make_heap comp d v first last).
Proof.
  intros H. unfold make_heap.
  destruct (last - first <? 2) eqn:C; [reflexivity|].
  apply Nat.ltb_ge in C.
  assert (B := half_le (last - first - 2)).
  apply make_heap_from_perm; lia.
Qed.

Lemma sort_heap_perm (n : nat) :
  forall v first, first + n <= length v ->
    Permutation v (sort_heap comp d v first n).
Proof.
  induction n as [|n IH]; intros v first H; simpl; [reflexivity|].
  destruct n as [|m]; [reflexivity|].
  assert (P : Permutation v
                (pop_heap comp d v first (first + S m) (first + S m)))
    by (apply pop_heap_perm; lia).
  rewrite <- IH; [exact P|].
  rewrite <- (Permutation_length P). lia.
Qed.

Lemma heap_select_from_perm (n : nat) :
  forall v first middle i,
    first < middle -> middle <= length v -> i + n <= length v ->
    Permutation v (heap_select_from comp d n v first middle i).
Proof.
  induction n as [|n IH]; intros v first middle i H1 H2 H3; simpl;
    [reflexivity|].
  destruct (comp _ _).
  - assert (P : Permutation v (pop_heap comp d v first middle i))
      by (apply pop_heap_perm; lia).
    rewrite <- IH; [exact P|lia| |];
      rewrite <- (Permutation_length P); lia.
  - apply IH; lia.
Qed.

Lemma partial_sort_perm (v : list A) (first last : nat) :
  first < last -> last <= length v ->
  Permutation v (partial_sort comp d v first last last).
Proof.
  intros H1 H2. unfold partial_sort, heap_select.
  assert (P : Permutation v (make_heap comp d v first last))
    by now apply make_heap_perm.
  rewrite Nat.sub_diag. simpl.
  rewrite <- sort_heap_perm; [exact P|].
  rewrite <- (Permutation_length P). lia.
Qed.

Lemma introsort_loop_perm (depth_limit : nat) :
  forall v first last,
    last <= length v ->
    Permutation v (introsort_loop comp d depth_limit v first last).
Proof.
  induction depth_limit as [|depth IH]; intros v first last H; simpl.
  - destruct (S_threshold <? last - first) eqn:C; [|reflexivity].
    apply Nat.ltb_lt in C. apply partial_sort_perm; lia.
  - destruct (S_threshold <? last - first) eqn:C; [|reflexivity].
    apply Nat.ltb_lt in C.
    destruct (unguarded_partition_pivot comp d v first last) as [v1 cut]
      eqn:E.
    assert (P1 : Permutation v v1).
    { change v1 with (fst (v1, cut)). rewrite <- E.
      apply unguarded_partition_pivot_perm. }
    assert (P2 : Permutation v1 (introsort_loop comp d depth v1 cut last)).
    { apply IH. now rewrite <- (Permutation_length P1). }
    assert (Hc : cut <= last).
    { change cut with (snd (v1, cut)). rewrite <- E.
      unfold unguarded_partition_pivot.
      match goal with
      | |- snd (unguarded_partition _ _ ?f ?v' ?a ?b ?c) <= _ =>
          assert (X := unguarded_partition_cut f v' a b c)
      end.
      lia. }
    apply (Permutation_trans P1), (Permutation_trans P2), IH.
    rewrite <- (Permutation_length P2), <- (Permutation_length P1). lia.
Qed.
End Rearranging.

Section Inserting.
Context {A : Type}.
Variable comp : A -> A -> bool.
Variable d : A.
Variable dom : list A.
Hypothesis comp_swo : strict_weak_ordering comp dom.

(** If [x] is smaller than [y], any [z] is greater than [x] or smaller than
    [y]. *)
Lemma swo_between (x y z : A) :
  In x dom -> In y dom -> In z dom ->
  comp x z = false -> comp z y = false -> comp x y = false.
Proof.
  intros Hx Hy Hz H1 H2.
  destruct (comp x y) eqn:E; [|reflexivity].
  destruct (comp z x) eqn:F.
  - rewrite <- H2. symmetry. now apply (swo_trans _ _ comp_swo z x y).
  - destruct (comp y z) eqn:G.
    + rewrite <- H1. symmetry. now apply (swo_trans _ _ comp_swo x y z).
    + destruct (swo_incomparable _ _ comp_swo x z y Hx Hz Hy H1 F H2 G)
        as [K _].
      congruence.
Qed.

Lemma StronglySorted_app_inv (R : A -> A -> Prop) (l1 l2 : list A) :
  StronglySorted R (l1 ++ l2) ->
  StronglySorted R l1 /\ StronglySorted R l2 /\
  forall x y, In x l1 -> In y l2 -> R x y.
Proof.
  induction l1 as [|a l1 IH]; simpl; intros H.
  - repeat split; [constructor|exact H|intros x y []].
  - apply StronglySorted_inv in H. destruct H as [H Ha].
    destruct (IH H) as [S1 [S2 C]]. rewrite Forall_forall in Ha.
    repeat split; auto.
    + constructor; [exact S1|]. apply Forall_forall. intros y Hy.
      apply Ha. apply in_or_app. auto.
    + intros x y [<-|Hx] Hy; [|now apply C].
      apply Ha. apply in_or_app. auto.
Qed.

(** The loop of [__unguarded_linear_insert] over a prefix [p] followed by
    the hole: the value lands behind the last element it is not smaller
    than. *)
Lemma linear_insert_spec (p : list A) :
  forall h s val,
    exists p1 p2,
      p = p1 ++ p2 /\
      linear_insert comp d (length p) (p ++ h :: s) (length p) val
        = p1 ++ val :: p2 ++ s /\
      Forall (fun e => comp val e = true) p2 /\
      (forall q e, p1 = q ++ [e] -> comp val e = false).
Proof.
  induction p as [|e q IH] using rev_ind; intros h s val.
  - exists [], []. repeat split; auto.
    intros q e H. destruct q; discriminate.
  - rewrite length_app. simpl length. rewrite Nat.add_1_r.
    cbn [linear_insert pred].
    rewrite <- app_assoc. simpl app.
    rewrite (at_app_r d q (h :: s) e).
    destruct (comp val e) eqn:C.
    + replace (assign (q ++ e :: h :: s) (S (length q)) e)
        with (q ++ e :: e :: s).
      2:{ change (q ++ e :: h :: s) with (q ++ [e] ++ h :: s).
          change (q ++ e :: e :: s) with (q ++ [e] ++ e :: s).
          rewrite !app_assoc.
          replace (S (length q)) with (length (q ++ [e]))
            by (rewrite length_app; simpl; lia).
          now rewrite assign_app_r. }
      destruct (IH e (e :: s) val) as [p1 [p2 [E [L [F N]]]]].
      exists p1, (p2 ++ [e]). repeat split.
      * rewrite E. now rewrite app_assoc.
      * rewrite L. now rewrite <- app_assoc.
      * apply Forall_app. split; [exact F|]. repeat constructor. exact C.
      * exact N.
    + exists (q ++ [e]), []. repeat split.
      * now rewrite app_nil_r.
      * change (q ++ e :: h :: s) with (q ++ [e] ++ h :: s).
        rewrite !app_assoc.
        replace (S (length q)) with (length (q ++ [e]))
          by (rewrite length_app; simpl; lia).
        now rewrite assign_app_r.
      * constructor.
      * intros q' e' H. apply app_inj_tail in H. destruct H as [_ <-].
        exact C.
Qed.

Lemma inserted_sorted (p1 p2 : list A) (val : A) :
  incl (val :: p1 ++ p2) dom ->
  sorted_by comp (p1 ++ p2) ->
  Forall (fun e => comp val e = true) p2 ->
  (forall q e, p1 = q ++ [e] -> comp val e = false) ->
  sorted_by comp (p1 ++ val :: p2).
Proof.
  intros Hd S F N. unfold sorted_by in *.
  destruct (StronglySorted_app_inv _ _ _ S) as [S1 [S2 C]].
  rewrite Forall_forall in F.
  assert (Hv : In val dom) by (apply Hd; simpl; auto).
  assert (H1 : forall a, In a p1 -> In a dom).
  { intros a Ha. apply Hd. right. apply in_or_app. auto. }
  assert (H2 : forall a, In a p2 -> In a dom).
  { intros a Ha. apply Hd. right. apply in_or_app. auto. }
  apply StronglySorted_app; [exact S1| |].
  - constructor; [exact S2|]. apply Forall_forall. intros b Hb.
    apply (swo_asym _ _ comp_swo val b); auto.
  - intros a y Ha [<-|Hy]; [|now apply C].
    destruct (exists_last (l := p1)) as [q [e E]];
      [intros ->; destruct Ha|].
    assert (Ne := N q e E). subst p1.
    apply in_app_or in Ha. destruct Ha as [Ha|[<-|[]]]; [|exact Ne].
    apply (swo_between val a e); auto.
    + apply H1. apply in_or_app. auto.
    + apply H1. apply in_or_app. simpl; auto.
    + destruct (StronglySorted_app_inv _ _ _ S1) as [_ [_ K]].
      apply K; simpl; auto.
Qed.

(** One round of an insertion sort: the prefix [p] is sorted, the element
    behind it is put in its place. *)
Lemma unguarded_linear_insert_spec (p s : list A) (x : A) :
  incl (x :: p) dom -> sorted_by comp p ->
  exists p',
    unguarded_linear_insert comp d (p ++ x :: s) (length p) = p' ++ s /\
    Permutation (p ++ [x]) p' /\ sorted_by comp p'.
Proof.
  intros Hd S. unfold unguarded_linear_insert. rewrite at_app_r.
  destruct (linear_insert_spec p x s x) as [p1 [p2 [E [L [F N]]]]].
  exists (p1 ++ x :: p2). repeat split.
  - rewrite L. now rewrite <- app_assoc.
  - rewrite E, <- app_assoc. apply Permutation_app_head.
    symmetry. apply Permutation_cons_append.
  - apply inserted_sorted; auto; rewrite <- E; auto.
Qed.

Lemma move_to_first_spec (p s : list A) (x : A) :
  move_to_first d (p ++ x :: s) 0 (length p) = x :: p ++ s.
Proof.
  assert (F : firstn (length p) (p ++ x :: s) = p).
  { rewrite firstn_app, Nat.sub_diag, firstn_all. simpl. apply app_nil_r. }
  assert (K : skipn (S (length p)) (p ++ x :: s) = s).
  { rewrite skipn_app, skipn_all2 by lia.
    replace (S (length p) - length p) with 1 by lia. reflexivity. }
  unfold move_to_first. rewrite at_app_r, Nat.sub_0_r, K.
  change (skipn 0 (p ++ x :: s)) with (p ++ x :: s). rewrite F.
  reflexivity.
Qed.

Lemma insertion_round (p s : list A) (x : A) :
  incl (x :: p) dom -> sorted_by comp p ->
  exists p',
    (if comp (at_ d (p ++ x :: s) (length p)) (at_ d (p ++ x :: s) 0)
     then move_to_first d (p ++ x :: s) 0 (length p)
     else unguarded_linear_insert comp d (p ++ x :: s) (length p))
    = p' ++ s /\
    Permutation (p ++ [x]) p' /\ sorted_by comp p'.
Proof.
  intros Hd S. rewrite at_app_r.
  destruct (comp x (at_ d (p ++ x :: s) 0)) eqn:C;
    [|now apply unguarded_linear_insert_spec].
  destruct p as [|p0 p].
  - unfold at_ in C. simpl in C.
    rewrite (swo_irrefl _ _ comp_swo x) in C by (apply Hd; simpl; auto).
    discriminate.
  - unfold at_ in C. simpl in C.
    exists (x :: p0 :: p). split; [apply move_to_first_spec|].
    split; [symmetry; apply Permutation_cons_append|].
    constructor; [exact S|]. apply Forall_forall. intros a Ha.
    assert (Hx : In x dom) by (apply Hd; simpl; auto).
    assert (H0 : In p0 dom) by (apply Hd; simpl; auto).
    assert (Ha' : In a dom) by (apply Hd; simpl; auto).
    destruct (comp a x) eqn:F; [|reflexivity].
    assert (G : comp a p0 = true)
      by now apply (swo_trans _ _ comp_swo a x p0).
    destruct Ha as [<-|Ha].
    + rewrite (swo_irrefl _ _ comp_swo p0 H0) in G. discriminate.
    + destruct (sorted_by_inv _ _ _ S) as [_ K].
      rewrite (K a Ha) in G. discriminate.
Qed.

Lemma insertion_sort_from_spec (r : list A) :
  forall p s,
    incl (p ++ r) dom -> sorted_by comp p ->
    exists p',
      insertion_sort_from comp d (length r) (p ++ r ++ s) 0 (length p)
        = p' ++ s /\
      Permutation (p ++ r) p' /\ sorted_by comp p'.
Proof.
  induction r as [|x r IH]; intros p s Hd Sp; simpl.
  - exists p. rewrite app_nil_r. auto.
  - destruct (insertion_round p (r ++ s) x) as [p1 [E [P S1]]]; auto.
    { intros a [<-|Ha]; apply Hd; apply in_or_app; simpl; auto. }
    rewrite E.
    assert (L : length p1 = S (length p)).
    { rewrite <- (Permutation_length P), length_app. simpl. lia. }
    rewrite <- L.
    destruct (IH p1 s) as [p2 [E2 [P2 S2]]]; auto.
    { intros a Ha. apply Hd. apply in_app_or in Ha.
      destruct Ha as [Ha|Ha].
      - apply (Permutation_in _ (Permutation_sym P)) in Ha.
        apply in_app_or in Ha. apply in_or_app.
        destruct Ha as [Ha|[<-|[]]]; simpl; auto.
      - apply in_or_app. simpl; auto. }
    exists p2. split; [exact E2|]. split; [|exact S2].
    rewrite <- P2, <- P, <- app_assoc. reflexivity.
Qed.

Lemma unguarded_insertion_sort_from_spec (r : list A) :
  forall p s,
    incl (p ++ r) dom -> sorted_by comp p ->
    exists p',
      unguarded_insertion_sort_from comp d (length r) (p ++ r ++ s)
        (length p)
        = p' ++ s /\
      Permutation (p ++ r) p' /\ sorted_by comp p'.
Proof.
  induction r as [|x r IH]; intros p s Hd Sp; simpl.
  - exists p. rewrite app_nil_r. auto.
  - destruct (unguarded_linear_insert_spec p (r ++ s) x) as [p1 [E [P S1]]];
      auto.
    { intros a [<-|Ha]; apply Hd; apply in_or_app; simpl; auto. }
    rewrite E.
    assert (L : length p1 = S (length p)).
    { rewrite <- (Permutation_length P), length_app. simpl. lia. }
    rewrite <- L.
    destruct (IH p1 s) as [p2 [E2 [P2 S2]]]; auto.
    { intros a Ha. apply Hd. apply in_app_or in Ha.
      destruct Ha as [Ha|Ha].
      - apply (Permutation_in _ (Permutation_sym P)) in Ha.
        apply in_app_or in Ha. apply in_or_app.
        destruct Ha as [Ha|[<-|[]]]; simpl; auto.
      - apply in_or_app. simpl; auto. }
    exists p2. split; [exact E2|]. split; [|exact S2].
    rewrite <- P2, <- P, <- app_assoc. reflexivity.
Qed.

Lemma final_insertion_sort_spec (v : list A) :
  incl v dom ->
  Permutation v (final_insertion_sort comp d v 0 (length v)) /\
  sorted_by comp (final_insertion_sort comp d v 0 (length v)).
Proof.
  intros Hd. unfold final_insertion_sort, insertion_sort.
  rewrite Nat.sub_0_r.
  destruct v as [|x0 t]; [simpl; split; constructor|].
  assert (S1 : sorted_by comp [x0]) by repeat constructor.
  destruct (S_threshold <? length (x0 :: t)) eqn:C.
  - apply Nat.ltb_lt in C. unfold S_threshold in *. simpl in C.
    change (0 + 16 - (0 + 1)) with 15. change (0 + 1) with (length [x0]).
    change (0 + 16) with 16. change (0 =? 16) with false. cbv match.
    assert (L : length (firstn 15 t) = 15) by (rewrite length_firstn; lia).
    assert (E : x0 :: t = [x0] ++ firstn 15 t ++ skipn 15 t)
      by (cbn [app]; now rewrite firstn_skipn).
    destruct (insertion_sort_from_spec (firstn 15 t) [x0] (skipn 15 t))
      as [p1 [E1 [P1 Sp1]]]; auto.
    { intros a Ha. apply Hd. rewrite E. apply in_app_or in Ha.
      apply in_or_app. destruct Ha; auto. right. apply in_or_app. auto. }
    rewrite L, <- E in E1. rewrite E1.
    assert (L1 : length p1 = 16).
    { rewrite <- (Permutation_length P1), length_app, L. reflexivity. }
    assert (L2 : length (skipn 15 t) = length (x0 :: t) - 16)
      by (rewrite length_skipn; simpl; lia).
    destruct (unguarded_insertion_sort_from_spec (skipn 15 t) p1 [])
      as [p2 [E2 [P2 Sp2]]]; auto.
    { intros a Ha. apply Hd. rewrite E. apply in_app_or in Ha.
      destruct Ha as [Ha|Ha].
      - apply (Permutation_in _ (Permutation_sym P1)) in Ha.
        apply in_app_or in Ha. apply in_or_app.
        destruct Ha; auto. right. apply in_or_app. auto.
      - apply in_or_app. right. apply in_or_app. auto. }
    rewrite !app_nil_r, L1, L2 in E2.
    unfold unguarded_insertion_sort. rewrite E2.
    split; [|exact Sp2].
    rewrite <- P2, <- P1, <- app_assoc, <- E. reflexivity.
  - change (0 =? length (x0 :: t)) with false. cbv match.
    change (length (x0 :: t) - (0 + 1)) with (length t - 0).
    rewrite Nat.sub_0_r. change (0 + 1) with (length [x0]).
    destruct (insertion_sort_from_spec t [x0] []) as [p1 [E1 [P1 Sp1]]];
      auto.
    rewrite !app_nil_r in E1. change ([x0] ++ t) with (x0 :: t) in *.
    rewrite E1. auto.
Qed.
End Inserting.

(** libstdc++'s [std::sort] does what the standard asks of [std::sort]. *)
Lemma libstdcxx_sort_conforms : std_sort_spec Libstdcxx.sort.
Proof.
  intros A comp l H. unfold sort. destruct l as [|d l'].
  - split; constructor.
  - set (l := d :: l') in *. unfold sort_range.
    change (0 =? length l) with false. cbv match.
    set (v := introsort_loop comp d (Nat.log2 (length l - 0) * 2) l 0
                (length l)).
    assert (P : Permutation l v) by now apply introsort_loop_perm.
    rewrite (Permutation_length P).
    destruct (final_insertion_sort_spec comp d l H v) as [P2 S2].
    { intros a Ha. now apply (Permutation_in _ (Permutation_sym P)). }
    split; [|exact S2]. now rewrite P at 1.
Qed.
End LibstdcxxFacts.

(** ** The scaffolding of [NumericSorter::sort] *)

Section NumericSorterFacts.
Context {T_Num : Type}.
Variable this : NumericSorter T_Num.

Lemma convert_lines_done (rest : list generic_string) :
  forall i ne em ne' em',
    convert_lines this i rest ne em = LoopDone ne' em' ->
    em' = em ++ filter (is_empty_line this) rest /\
    exists cs,
      ne' = ne ++ cs /\
      map (fun p => nth (fst p - i) rest []) cs
        = filter (fun l => negb (is_empty_line this l)) rest /\
      Forall (fun p => (i <= fst p)%nat /\
                line_number this (nth (fst p - i) rest []) = Converted (snd p))
             cs.
Proof.
  induction rest as [|line rest IH]; intros i ne em ne' em' H; simpl in H.
  - injection H as <- <-. split; [now rewrite app_nil_r|].
    exists []. rewrite app_nil_r. repeat split. constructor.
  - assert (Shift : forall p : nat * T_Num, (S i <= fst p)%nat ->
              nth (fst p - i) (line :: rest) [] = nth (fst p - S i) rest []).
    { intros p Hp. replace (fst p - i)%nat with (S (fst p - S i)) by lia.
      reflexivity. }
    change (considerStringEmpty (prepareStringForConversion this line))
      with (is_empty_line this line) in H.
    simpl filter. destruct (is_empty_line this line) eqn:E; simpl negb;
      cbv iota.
    + apply IH in H. destruct H as [He [cs [Hn [Hm Hf]]]].
      split; [now rewrite He, <- app_assoc|].
      exists cs. split; [exact Hn|]. rewrite Forall_forall in Hf. split.
      * rewrite <- Hm. apply map_ext_in. intros p Hp.
        apply Shift. now apply Hf.
      * apply Forall_forall. intros p Hp. destruct (Hf p Hp) as [H1 H2].
        split; [lia|]. now rewrite Shift.
    + destruct (convertStringToNumber this
                  (prepareStringForConversion this line)) as [number| |] eqn:C;
        try discriminate.
      apply IH in H. destruct H as [He [cs [Hn [Hm Hf]]]].
      split; [exact He|].
      exists ((i, number) :: cs). split; [now rewrite Hn, <- app_assoc|].
      rewrite Forall_forall in Hf. split.
      * simpl. rewrite Nat.sub_diag. f_equal. rewrite <- Hm.
        apply map_ext_in. intros p Hp. apply Shift. now apply Hf.
      * constructor.
        -- simpl. rewrite Nat.sub_diag. split; [lia|exact C].
        -- apply Forall_forall. intros p Hp. destruct (Hf p Hp) as [H1 H2].
           split; [lia|]. now rewrite Shift.
Qed.

(** The first assertion of [sort]: every line went to one of the two
    vectors. *)
Lemma convert_lines_sizes (rest : list generic_string) :
  forall i ne em ne' em',
    convert_lines this i rest ne em = LoopDone ne' em' ->
    (length ne' + length em' = length ne + length em + length rest)%nat.
Proof.
  intros i ne em ne' em' H. apply convert_lines_done in H.
  destruct H as [-> [cs [-> [Hm _]]]].
  apply (f_equal (@length _)) in Hm. rewrite length_map in Hm.
  rewrite !length_app, Hm.
  assert (P := Permutation_length
                 (filter_split_perm (is_empty_line this) rest)).
  rewrite length_app in P. lia.
Qed.

(** The loop ends in one of two ways: it throws at the first line whose
    conversion throws, or no line's conversion throws and it completes. *)
Lemma convert_lines_cases (rest : list generic_string) :
  forall i ne em,
    (exists k, convert_lines this i rest ne em = LoopThrow (i + k) /\
       (k < length rest)%nat /\
       conversion_throws this (nth k rest []) = true /\
       forall k', (k' < k)%nat ->
         conversion_throws this (nth k' rest []) = false)
    \/
    (exists ne' em', convert_lines this i rest ne em = LoopDone ne' em' /\
       forall k, (k < length rest)%nat ->
         conversion_throws this (nth k rest []) = false).
Proof.
  induction rest as [|line rest IH]; intros i ne em; simpl.
  - right. exists ne, em. split; [reflexivity|]. intros k Hk. lia.
  - destruct (considerStringEmpty (prepareStringForConversion this line))
      eqn:E.
    + assert (T : conversion_throws this line = false)
        by (unfold conversion_throws, is_empty_line; now rewrite E).
      destruct (IH (S i) ne (em ++ [line])) as [[k [H1 [H2 [H3 H4]]]]|
                                                 [ne' [em' [H1 H2]]]].
      * left. exists (S k). rewrite Nat.add_succ_r. split; [exact H1|].
        split; [lia|]. split; [exact H3|].
        intros [|k'] Hk'; [exact T|]. apply H4. lia.
      * right. exists ne', em'. split; [exact H1|].
        intros [|k] Hk; [exact T|]. apply H2. lia.
    + destruct (convertStringToNumber this
                  (prepareStringForConversion this line)) as [number| |] eqn:C.
      * assert (T : conversion_throws this line = false)
          by (unfold conversion_throws, is_empty_line, line_number;
              now rewrite E, C).
        destruct (IH (S i) (ne ++ [(i, number)]) em)
          as [[k [H1 [H2 [H3 H4]]]]|[ne' [em' [H1 H2]]]].
        -- left. exists (S k). rewrite Nat.add_succ_r. split; [exact H1|].
           split; [lia|]. split; [exact H3|].
           intros [|k'] Hk'; [exact T|]. apply H4. lia.
        -- right. exists ne', em'. split; [exact H1|].
           intros [|k] Hk; [exact T|]. apply H2. lia.
      * left. exists 0%nat. rewrite Nat.add_0_r. split; [reflexivity|].
        split; [lia|]. split; [|intros k' Hk'; lia].
        unfold conversion_throws, is_empty_line, line_number.
        now rewrite E, C.
      * left. exists 0%nat. rewrite Nat.add_0_r. split; [reflexivity|].
        split; [lia|]. split; [|intros k' Hk'; lia].
        unfold conversion_throws, is_empty_line, line_number.
        now rewrite E, C.
Qed.

Variable std_sort : std_sort_t.

(** [sort] throws exactly the index of the first line whose conversion
    throws. *)
Lemma NumericSorter_sort_thrown (descending : bool)
    (lines : list generic_string) (i : nat) :
  NumericSorter_sort this std_sort descending lines = Thrown i <->
  ((i < length lines)%nat /\
   conversion_throws this (nth i lines []) = true /\
   forall k, (k < i)%nat -> conversion_throws this (nth k lines []) = false).
Proof.
  unfold NumericSorter_sort.
  destruct (convert_lines_cases lines 0 [] [])
    as [[k [H1 [H2 [H3 H4]]]]|[ne' [em' [H1 H2]]]]; rewrite H1; simpl.
  - split.
    + intros [= <-]. auto.
    + intros [Hi [Ht Hb]]. f_equal.
      destruct (Nat.lt_trichotomy k i) as [L|[L|L]]; [|exact L|].
      * rewrite (Hb k L) in H3. discriminate.
      * rewrite (H4 i L) in Ht. discriminate.
  - split; [discriminate|]. intros [Hi [Ht _]].
    rewrite (H2 i Hi) in Ht. discriminate.
Qed.

Hypothesis std_sort_conforms : std_sort_spec std_sort.
Hypothesis less_ordered : ordered_numbers this.

Lemma numeric_comp_swo (descending : bool) (cs : list (nat * T_Num)) :
  (forall p, In p cs ->
     exists s, convertStringToNumber this s = Converted (snd p)) ->
  strict_weak_ordering (numeric_comp this descending) cs.
Proof.
  intros H.
  assert (S : strict_weak_ordering
                (fun a b => less this (snd a) (snd b)) cs).
  { apply swo_map. apply less_ordered. intros k Hk.
    apply in_map_iff in Hk. destruct Hk as [p [<- Hp]]. now apply H. }
  destruct descending.
  - apply swo_flip in S. exact S.
  - exact S.
Qed.

(** The shape of every returned output. *)
Lemma NumericSorter_sort_returned (descending : bool)
    (lines out : list generic_string) :
  NumericSorter_sort this std_sort descending lines = Returned out ->
  exists sorted,
    out = assemble descending (filter (is_empty_line this) lines) sorted /\
    Permutation (filter (fun l => negb (is_empty_line this l)) lines) sorted /\
    sorted_by (line_comp this descending) sorted /\
    (forall l, In l sorted -> converts (line_number this l) = true).
Proof.
  unfold NumericSorter_sort.
  destruct (convert_lines this 0 lines [] []) as [ne em|] eqn:L;
    [|discriminate].
  apply convert_lines_done in L. simpl in L.
  destruct L as [-> [cs [-> [Hm Hf]]]].
  rewrite Forall_forall in Hf.
  assert (Hm' : map (fun p : nat * T_Num => nth (fst p) lines []) cs
                = filter (fun l => negb (is_empty_line this l)) lines).
  { rewrite <- Hm. apply map_ext. intros p. now rewrite Nat.sub_0_r. }
  assert (Hk : forall p, In p cs ->
             line_number this (nth (fst p) lines []) = Converted (snd p)).
  { intros p Hp. destruct (Hf p Hp) as [_ E].
    now rewrite Nat.sub_0_r in E. }
  destruct (std_sort_conforms _ (numeric_comp this descending) cs)
    as [Hperm Hsorted].
  { apply numeric_comp_swo. intros p Hp. eexists. apply (Hk p Hp). }
  intros [= <-].
  exists (map (fun p : nat * T_Num => nth (fst p) lines [])
            (std_sort _ (numeric_comp this descending) cs)).
  assert (Hin : forall p, In p (std_sort _ (numeric_comp this descending) cs)
                  -> In p cs)
    by (intros p Hp; now apply (Permutation_in _ (Permutation_sym Hperm))).
  repeat split.
  - unfold assemble. destruct descending; simpl; [reflexivity|].
    now rewrite app_nil_r.
  - rewrite <- Hm'. now apply Permutation_map.
  - unfold sorted_by.
    apply (StronglySorted_map_in
             (fun a b => numeric_comp this descending b a = false)).
    + intros a b Ha Hb. unfold line_comp, numeric_comp.
      rewrite (Hk a (Hin a Ha)), (Hk b (Hin b Hb)).
      destruct descending; auto.
    + exact Hsorted.
  - intros l Hl. apply in_map_iff in Hl. destruct Hl as [p [<- Hp]].
    now rewrite (Hk p (Hin p Hp)).
Qed.
End NumericSorterFacts.

(** ** Sorted rearrangements agree up to equivalence *)

Section SortedEquivalent.
Context {A : Type}.
Variable comp : A -> A -> bool.
Variable dom : list A.
Hypothesis comp_swo : strict_weak_ordering comp dom.

Lemma equivb_spec (x y : A) : equivb comp x y = true <-> equivalent comp x y.
Proof.
  unfold equivb, equivalent. destruct (comp x y), (comp y x); simpl;
    intuition congruence.
Qed.

Lemma equivb_refl (x : A) : In x dom -> equivb comp x x = true.
Proof.
  intros Hx. unfold equivb. now rewrite (swo_irrefl _ _ comp_swo x Hx).
Qed.

Lemma equivb_congr (x a b : A) :
  In x dom -> In a dom -> In b dom ->
  equivalent comp a b -> equivb comp x a = equivb comp x b.
Proof.
  intros Hx Ha Hb [H1 H2].
  destruct (equivb comp x a) eqn:E1, (equivb comp x b) eqn:E2; auto.
  - apply equivb_spec in E1. destruct E1 as [E1 E1'].
    destruct (swo_incomparable _ _ comp_swo x a b Hx Ha Hb E1 E1' H1 H2)
      as [F1 F2].
    unfold equivb in E2. rewrite F1, F2 in E2. discriminate.
  - apply equivb_spec in E2. destruct E2 as [E2 E2'].
    destruct (swo_incomparable _ _ comp_swo x b a Hx Hb Ha E2 E2' H2 H1)
      as [F1 F2].
    unfold equivb in E1. rewrite F1, F2 in E1. discriminate.
Qed.

(** The head of a sorted list is not greater than an element equivalent to
    one of the list. *)
Lemma sorted_head_least (a b : A) (l : list A) :
  incl (a :: l) dom -> In b dom -> sorted_by comp (a :: l) ->
  (0 < length (filter (equivb comp b) (a :: l)))%nat ->
  comp b a = false.
Proof.
  intros Hl Hb Hs Hc.
  destruct (filter_nonempty_in _ _ Hc) as [a' [Ha' E]].
  apply equivb_spec in E. destruct E as [E1 E2].
  destruct Ha' as [<-|Ha']; [exact E1|].
  destruct (sorted_by_inv _ _ _ Hs) as [_ Hall].
  destruct (comp b a) eqn:F; [|reflexivity].
  assert (G : comp a' a = true).
  { apply (swo_equiv_lt _ _ comp_swo a' b a); auto; apply Hl; simpl; auto. }
  rewrite (Hall a' Ha') in G. discriminate.
Qed.

Lemma sorted_equivalent (l1 : list A) :
  forall l2,
    incl l1 dom -> incl l2 dom ->
    (forall x, In x dom ->
       length (filter (equivb comp x) l1)
       = length (filter (equivb comp x) l2)) ->
    sorted_by comp l1 -> sorted_by comp l2 ->
    Forall2 (equivalent comp) l1 l2.
Proof.
  induction l1 as [|a l1 IH]; intros [|b l2] H1 H2 Hc S1 S2.
  - constructor.
  - assert (Hb : In b dom) by (apply H2; simpl; auto).
    specialize (Hc b Hb). simpl in Hc. rewrite (equivb_refl b Hb) in Hc.
    discriminate.
  - assert (Ha : In a dom) by (apply H1; simpl; auto).
    specialize (Hc a Ha). simpl in Hc. rewrite (equivb_refl a Ha) in Hc.
    discriminate.
  - assert (Ha : In a dom) by (apply H1; simpl; auto).
    assert (Hb : In b dom) by (apply H2; simpl; auto).
    assert (E : equivalent comp a b).
    { split.
      - apply (sorted_head_least b a l2); auto.
        rewrite <- (Hc a Ha). simpl. rewrite (equivb_refl a Ha). simpl. lia.
      - apply (sorted_head_least a b l1); auto.
        rewrite (Hc b Hb). simpl. rewrite (equivb_refl b Hb). simpl. lia. }
    constructor; [exact E|].
    apply IH.
    + intros z Hz. apply H1. simpl; auto.
    + intros z Hz. apply H2. simpl; auto.
    + intros x Hx. specialize (Hc x Hx). simpl in Hc.
      rewrite (equivb_congr x a b Hx Ha Hb E) in Hc.
      destruct (equivb comp x b); simpl in Hc; lia.
    + apply (sorted_by_inv _ _ _ S1).
    + apply (sorted_by_inv _ _ _ S2).
Qed.

Lemma sorted_perm_equivalent (l1 l2 : list A) :
  Permutation l1 l2 -> incl l1 dom ->
  sorted_by comp l1 -> sorted_by comp l2 ->
  Forall2 (equivalent comp) l1 l2.
Proof.
  intros P H1 S1 S2. apply sorted_equivalent; auto.
  - intros z Hz. apply H1.
    now apply (Permutation_in _ (Permutation_sym P)).
  - intros x _. now apply filter_length_perm.
Qed.
End SortedEquivalent.

Lemma Forall2_eq_list {A : Type} (l l' : list A) : Forall2 eq l l' -> l = l'.
Proof.
  induction 1; [reflexivity|]. now subst.
Qed.

(** Under the lexicographic comparison there is one sorted rearrangement. *)
Lemma lexicographic_sorted_unique (descending : bool)
    (l1 l2 : list generic_string) :
  Permutation l1 l2 ->
  sorted_by (lexicographic_comp descending) l1 ->
  sorted_by (lexicographic_comp descending) l2 -> l1 = l2.
Proof.
  intros P S1 S2. apply Forall2_eq_list.
  apply (Forall2_impl (R1 := equivalent (lexicographic_comp descending))).
  - intros a b [E1 E2]. now apply (lexicographic_comp_total descending).
  - apply (sorted_perm_equivalent _ l1); auto.
    + apply lexicographic_comp_swo.
    + apply incl_refl.
Qed.

(** ** The three numeric sorters *)

Lemma IntegerSorter_ordered : ordered_numbers IntegerSorter.
Proof.
  intros keys _. apply Z_ltb_swo.
Qed.

Lemma DecimalCommaSorter_ordered : ordered_numbers DecimalCommaSorter.
Proof.
  intros keys H. apply double_lt_swo. intros x Hx.
  destruct (H x Hx) as [s E]. now apply (stodLocale_not_nan s).
Qed.

Lemma DecimalDotSorter_ordered : ordered_numbers DecimalDotSorter.
Proof.
  intros keys H. apply double_lt_swo. intros x Hx.
  destruct (H x Hx) as [s E]. now apply (stodLocale_not_nan s).
Qed.

(** ** The sorters behind the interface *)

(** A predicate true at [k] is true at a first index. *)
Lemma first_true (f : nat -> bool) (k : nat) :
  f k = true ->
  exists i, (i <= k)%nat /\ f i = true /\
    forall j, (j < i)%nat -> f j = false.
Proof.
  induction k as [k IH] using lt_wf_ind. intros F.
  destruct (existsb f (seq 0 k)) eqn:X.
  - apply existsb_exists in X. destruct X as [j [Hj Fj]].
    apply in_seq in Hj. destruct (IH j) as [i [H1 [H2 H3]]]; [lia|exact Fj|].
    exists i. repeat split; auto. lia.
  - exists k. repeat split; auto. intros j Hj.
    destruct (f j) eqn:Fj; auto.
    rewrite <- X. symmetry. apply existsb_exists. exists j.
    split; [apply in_seq; lia|exact Fj].
Qed.

Section SortFacts.
Variable std_sort : std_sort_t.

Lemma sort_thrown (sorter : ISorter) (descending : bool)
    (lines : list generic_string) (i : nat) :
  sort std_sort sorter descending lines = Thrown i <->
  ((i < length lines)%nat /\
   conversion_fails sorter (nth i lines []) = true /\
   forall k, (k < i)%nat -> conversion_fails sorter (nth k lines []) = false).
Proof.
  destruct sorter; simpl; try apply NumericSorter_sort_thrown.
  unfold LexicographicSorter_sort. split; [discriminate|].
  intros [_ [H _]]. discriminate.
Qed.

(** [sort] returns as soon as no candidate's conversion throws. *)
Lemma sort_returns (sorter : ISorter) (descending : bool)
    (lines : list generic_string) :
  (forall l, In l lines -> conversion_fails sorter l = false) ->
  exists out, sort std_sort sorter descending lines = Returned out.
Proof.
  intros H.
  destruct (sort std_sort sorter descending lines) as [out|i] eqn:E.
  - now exists out.
  - apply sort_thrown in E. destruct E as [Hi [Hf _]].
    rewrite (H (nth i lines [])) in Hf; [discriminate|].
    now apply nth_In.
Qed.

Hypothesis std_sort_conforms : std_sort_spec std_sort.

Lemma sort_returned (sorter : ISorter) (descending : bool)
    (lines out : list generic_string) :
  sort std_sort sorter descending lines = Returned out ->
  exists sorted,
    out = assemble descending (filter (is_empty sorter) lines) sorted /\
    Permutation (filter (fun l => negb (is_empty sorter l)) lines) sorted /\
    sorted_by (precedes sorter descending) sorted /\
    (forall l, In l lines -> conversion_fails sorter l = false).
Proof.
  intros H.
  assert (NF : forall l, In l lines -> conversion_fails sorter l = false).
  { intros l Hl. destruct (In_nth lines l [] Hl) as [k [Hk <-]].
    destruct (conversion_fails sorter (nth k lines [])) eqn:F; auto.
    destruct (first_true (fun j => conversion_fails sorter (nth j lines []))
                k F) as [i [Hi [Fi Hb]]].
    assert (X : sort std_sort sorter descending lines = Thrown i).
    { apply sort_thrown. repeat split; auto. lia. }
    congruence. }
  destruct sorter; simpl in H.
  - unfold LexicographicSorter_sort in H. injection H as <-.
    destruct (std_sort_conforms _ (lexicographic_comp descending) lines
                (lexicographic_comp_swo descending lines)) as [P S].
    exists (std_sort _ (lexicographic_comp descending) lines).
    repeat split; auto.
    + rewrite (filter_none (is_empty Lexicographic)) by reflexivity.
      unfold assemble. destruct descending; simpl; auto.
      now rewrite app_nil_r.
    + rewrite filter_all by reflexivity. exact P.
  - destruct (NumericSorter_sort_returned IntegerSorter std_sort
                std_sort_conforms IntegerSorter_ordered _ _ _ H)
      as [sorted [H1 [H2 [H3 _]]]].
    exists sorted. auto.
  - destruct (NumericSorter_sort_returned DecimalCommaSorter std_sort
                std_sort_conforms DecimalCommaSorter_ordered _ _ _ H)
      as [sorted [H1 [H2 [H3 _]]]].
    exists sorted. auto.
  - destruct (NumericSorter_sort_returned DecimalDotSorter std_sort
                std_sort_conforms DecimalDotSorter_ordered _ _ _ H)
      as [sorted [H1 [H2 [H3 _]]]].
    exists sorted. auto.
Qed.

Lemma sort_permutation (sorter : ISorter) (descending : bool)
    (lines out : list generic_string) :
  sort std_sort sorter descending lines = Returned out ->
  Permutation lines out.
Proof.
  intros H. destruct (sort_returned _ _ _ _ H) as [sorted [-> [P _]]].
  rewrite (filter_split_perm (is_empty sorter) lines) at 1.
  unfold assemble. destruct descending.
  - rewrite Permutation_app_comm. now apply Permutation_app_tail.
  - now apply Permutation_app_head.
Qed.
End SortFacts.

(** * The statements of the specification *)

(** The examples of the specification that are as it says, under both
    implementations of [std::sort]. *)
Example integer_example_ascending :
  sort Libstdcxx.sort Integer false integer_example
    = Returned (map TEXT [""; "-5"; "2"; "10"]%string) /\
  sort stable_sort Integer false integer_example
    = Returned (map TEXT [""; "-5"; "2"; "10"]%string).
Proof.
  split; vm_compute; reflexivity.
Qed.

Example integer_example_descending :
  sort Libstdcxx.sort Integer true integer_example
    = Returned (map TEXT ["10"; "2"; "-5"; ""]%string) /\
  sort stable_sort Integer true integer_example
    = Returned (map TEXT ["10"; "2"; "-5"; ""]%string).
Proof.
  split; vm_compute; reflexivity.
Qed.

Example dot_example_ascending :
  sort Libstdcxx.sort DecimalDot false (map TEXT ["3.5"; "1.25"; " "]%string)
    = Returned (map TEXT [" "; "1.25"; "3.5"]%string) /\
  sort stable_sort DecimalDot false (map TEXT ["3.5"; "1.25"; " "]%string)
    = Returned (map TEXT [" "; "1.25"; "3.5"]%string).
Proof.
  split; vm_compute; reflexivity.
Qed.

Example lexicographic_example_descending :
  sort Libstdcxx.sort Lexicographic true
    (map TEXT ["banana"; "apple"; "cherry"]%string)
    = Returned (map TEXT ["cherry"; "banana"; "apple"]%string) /\
  sort stable_sort Lexicographic true
    (map TEXT ["banana"; "apple"; "cherry"]%string)
    = Returned (map TEXT ["cherry"; "banana"; "apple"]%string).
Proof.
  split; vm_compute; reflexivity.
Qed.

(** C1.  For every sorter and both directions the output of [sort] is a
    permutation of the input: the same lines with the same multiplicities,
    hence the same length.  A numeric sorter has an output whenever no
    candidate's conversion throws; the lexicographic sorter always has. *)
Theorem sort_output_is_permutation (std_sort : std_sort_t)
    (conforms : std_sort_spec std_sort) (sorter : ISorter)
    (descending : bool) (lines : list generic_string) :
  (forall out, sort std_sort sorter descending lines = Returned out ->
     Permutation lines out /\ length out = length lines) /\
  ((forall l, In l lines -> conversion_fails sorter l = false) ->
   exists out, sort std_sort sorter descending lines = Returned out).
Proof.
  split.
  - intros out H. apply (sort_permutation _ conforms) in H.
    split; [exact H|]. symmetry. now apply Permutation_length.
  - apply sort_returns.
Qed.

Lemma sort_output_is_permutation_witness :
  Permutation integer_example (map TEXT [""; "-5"; "2"; "10"]%string) /\
  length (map TEXT [""; "-5"; "2"; "10"]%string) = length integer_example.
Proof.
  apply (proj1 (sort_output_is_permutation Libstdcxx.sort LibstdcxxFacts.libstdcxx_sort_conforms
                  Integer false integer_example)).
  vm_compute. reflexivity.
Defined.

(** C3.  When the conversion of some candidate line throws, the call of a
    numeric sorter throws the zero-based index of the first such line; no
    output is returned. *)
Theorem sort_throws_first_failing_index (std_sort : std_sort_t)
    (sorter : ISorter) (descending : bool) (lines : list generic_string)
    (j : nat) :
  (j < length lines)%nat ->
  conversion_fails sorter (nth j lines []) = true ->
  exists i,
    sort std_sort sorter descending lines = Thrown i /\
    (i <= j)%nat /\
    conversion_fails sorter (nth i lines []) = true /\
    forall k, (k < i)%nat -> conversion_fails sorter (nth k lines []) = false.
Proof.
  intros Hj F.
  destruct (first_true (fun k => conversion_fails sorter (nth k lines []))
              j F) as [i [Hi [Fi Hb]]].
  exists i. repeat split; auto.
  apply sort_thrown. repeat split; auto. lia.
Qed.

Lemma sort_throws_first_failing_index_witness :
  exists i,
    sort Libstdcxx.sort Integer true (map TEXT ["4"; "-"; "x"; "--"]%string)
      = Thrown i /\
    (i <= 3)%nat /\
    conversion_fails Integer
      (nth i (map TEXT ["4"; "-"; "x"; "--"]%string) []) = true /\
    forall k, (k < i)%nat ->
      conversion_fails Integer
        (nth k (map TEXT ["4"; "-"; "x"; "--"]%string) []) = false.
Proof.
  apply (sort_throws_first_failing_index Libstdcxx.sort Integer true
           (map TEXT ["4"; "-"; "x"; "--"]%string) 3).
  - simpl. lia.
  - vm_compute. reflexivity.
Defined.

(** C4.  A returned output is made of the lines set aside as empty, in
    their original relative order, and of the candidates sorted by their
    numbers: the empty lines come first when ascending, last when
    descending. *)
Theorem sort_clusters_empty_lines (std_sort : std_sort_t)
    (conforms : std_sort_spec std_sort) (sorter : ISorter)
    (descending : bool) (lines out : list generic_string) :
  sort std_sort sorter descending lines = Returned out ->
  exists sorted,
    out = (if descending
           then sorted ++ filter (is_empty sorter) lines
           else filter (is_empty sorter) lines ++ sorted) /\
    Permutation (filter (fun l => negb (is_empty sorter l)) lines) sorted /\
    sorted_by (precedes sorter descending) sorted /\
    (forall l, In l sorted ->
       is_empty sorter l = false /\ conversion_fails sorter l = false).
Proof.
  intros H.
  destruct (sort_returned _ conforms _ _ _ _ H) as [sorted [H1 [H2 [H3 H4]]]].
  exists sorted. split; [exact H1|]. split; [exact H2|].
  split; [exact H3|]. intros l Hl.
  apply (Permutation_in _ (Permutation_sym H2)) in Hl.
  apply filter_In in Hl. destruct Hl as [Hl E].
  split; [now destruct (is_empty sorter l)|now apply H4].
Qed.

Lemma sort_clusters_empty_lines_witness :
  exists sorted,
    map TEXT ["10"; "2"; "-5"; ""]%string
      = sorted ++ filter (is_empty Integer) integer_example /\
    Permutation
      (filter (fun l => negb (is_empty Integer l)) integer_example) sorted /\
    sorted_by (precedes Integer true) sorted /\
    (forall l, In l sorted ->
       is_empty Integer l = false /\ conversion_fails Integer l = false).
Proof.
  apply (sort_clusters_empty_lines Libstdcxx.sort LibstdcxxFacts.libstdcxx_sort_conforms
           Integer true integer_example).
  vm_compute. reflexivity.
Defined.

(** C6, as stated: the decimal-comma sorter, ascending, throws the line
    index 2 on ["3,5"; "1,25"; "abc"].  It does not: no character of "abc"
    is admissible, the prepared line is empty and the line is set aside. *)
Lemma comma_example_does_not_throw :
  sort Libstdcxx.sort DecimalComma false comma_example <> Thrown 2.
Proof.
  vm_compute. discriminate.
Qed.

(** C6, amended.  On ["3,5"; "1,25"; "abc"] the decimal-comma sorter,
    ascending, returns ["abc"; "1,25"; "3,5"]: "abc" counts as an empty line
    and comes first, the two numbers follow in ascending order. *)
Theorem comma_example_sorted (std_sort : std_sort_t)
    (conforms : std_sort_spec std_sort) :
  sort std_sort DecimalComma false comma_example
  = Returned (map TEXT ["abc"; "1,25"; "3,5"]%string).
Proof.
  destruct (sort_returns std_sort DecimalComma false comma_example)
    as [out H].
  { intros l Hl. repeat (destruct Hl as [<-|Hl]; [vm_compute; reflexivity|]).
    destruct Hl. }
  rewrite H. f_equal.
  destruct (sort_returned _ conforms _ _ _ _ H) as [sorted [-> [P [S _]]]].
  change (filter (fun l => negb (is_empty DecimalComma l)) comma_example)
    with (map TEXT ["3,5"; "1,25"]%string) in P.
  change (filter (is_empty DecimalComma) comma_example)
    with (map TEXT ["abc"]%string).
  apply Permutation_length_2_inv in P. destruct P as [->| ->].
  - apply sorted_by_inv in S. destruct S as [_ S].
    specialize (S (TEXT "1,25") (or_introl eq_refl)).
    vm_compute in S. discriminate.
  - reflexivity.
Qed.

Lemma comma_example_sorted_witness :
  sort Libstdcxx.sort DecimalComma false comma_example
  = Returned (map TEXT ["abc"; "1,25"; "3,5"]%string).
Proof.
  apply (comma_example_sorted Libstdcxx.sort).
  apply LibstdcxxFacts.libstdcxx_sort_conforms.
Defined.

(** C7, as stated: a single-line input is returned unchanged by every
    sorter, never a failure.  The integer sorter throws on the single line
    "-": the line is a candidate and holds no digit. *)
Lemma lone_minus_throws :
  sort Libstdcxx.sort Integer false lone_minus <> Returned lone_minus.
Proof.
  vm_compute. discriminate.
Qed.

(** C7, amended.  Every sorter returns the empty sequence on the empty
    sequence and returns unchanged an input made of empty lines only; it
    returns a single line unchanged unless that line is a candidate whose
    conversion throws, and then it throws the index 0. *)
Theorem sort_small_inputs (std_sort : std_sort_t)
    (conforms : std_sort_spec std_sort) (sorter : ISorter)
    (descending : bool) :
  sort std_sort sorter descending [] = Returned [] /\
  (forall line,
     sort std_sort sorter descending [line]
     = if conversion_fails sorter line then Thrown 0 else Returned [line]) /\
  (forall lines,
     (forall l, In l lines -> is_empty sorter l = true) ->
     sort std_sort sorter descending lines = Returned lines).
Proof.
  assert (R : forall lines,
            (forall l, In l lines -> conversion_fails sorter l = false) ->
            exists out, sort std_sort sorter descending lines = Returned out
                        /\ Permutation lines out).
  { intros lines H. destruct (sort_returns std_sort _ descending _ H)
      as [out E].
    exists out. split; [exact E|]. now apply (sort_permutation _ conforms) in E. }
  split; [|split].
  - destruct (R []) as [out [E P]]; [intros l []|].
    apply Permutation_nil in P. now subst.
  - intros line. destruct (conversion_fails sorter line) eqn:F.
    + apply sort_thrown. simpl. repeat split; auto. intros k Hk. lia.
    + destruct (R [line]) as [out [E P]].
      { intros l [<-|[]]. exact F. }
      apply Permutation_length_1_inv in P. now subst.
  - intros lines H.
    destruct (R lines) as [out [E _]].
    { intros l Hl. specialize (H l Hl).
      destruct sorter; simpl in *; auto;
        unfold conversion_throws; now rewrite H. }
    rewrite E. f_equal.
    destruct (sort_returned _ conforms _ _ _ _ E) as [sorted [-> [P _]]].
    rewrite (filter_all (is_empty sorter)) by exact H.
    rewrite filter_none in P by (intros l Hl; now rewrite (H l Hl)).
    apply Permutation_nil in P. subst. unfold assemble.
    destruct descending; simpl; auto. apply app_nil_r.
Qed.

Lemma sort_small_inputs_witness :
  sort Libstdcxx.sort Integer false lone_minus = Thrown 0 /\
  sort Libstdcxx.sort DecimalDot true [TEXT "4.5"] = Returned [TEXT "4.5"].
Proof.
  split.
  - exact (proj1 (proj2 (sort_small_inputs Libstdcxx.sort LibstdcxxFacts.libstdcxx_sort_conforms
                           Integer false)) (TEXT "-")).
  - exact (proj1 (proj2 (sort_small_inputs Libstdcxx.sort LibstdcxxFacts.libstdcxx_sort_conforms
                           DecimalDot true)) (TEXT "4.5")).
Defined.

(** ** Lines that are set aside, and the two decimal sorters *)

Section Overriding.
Context {T_Num : Type}.
Variables this this' : NumericSorter T_Num.

Lemma convert_lines_ext (rest : list generic_string) :
  (forall l, In l rest ->
     prepareStringForConversion this l = prepareStringForConversion this' l) ->
  (forall l, In l rest -> is_empty_line this l = false ->
     line_number this l = line_number this' l) ->
  forall i ne em,
    convert_lines this i rest ne em = convert_lines this' i rest ne em.
Proof.
  induction rest as [|line rest IH]; intros Hp Hc i ne em; simpl;
    [reflexivity|].
  assert (Hp' : forall l, In l rest ->
     prepareStringForConversion this l = prepareStringForConversion this' l)
    by (intros l Hl; apply Hp; simpl; auto).
  assert (Hc' : forall l, In l rest -> is_empty_line this l = false ->
     line_number this l = line_number this' l)
    by (intros l Hl; apply Hc; simpl; auto).
  rewrite <- (Hp line) by (simpl; auto).
  destruct (considerStringEmpty (prepareStringForConversion this line))
    eqn:E.
  - now apply IH.
  - assert (C := Hc line (or_introl eq_refl) E).
    unfold line_number in C. rewrite <- (Hp line) in C by (simpl; auto).
    rewrite <- C.
    destruct (convertStringToNumber this
                (prepareStringForConversion this line)); auto.
Qed.

Lemma NumericSorter_sort_ext (std_sort : std_sort_t) (descending : bool)
    (lines : list generic_string) :
  less this = less this' ->
  (forall l, In l lines ->
     prepareStringForConversion this l = prepareStringForConversion this' l) ->
  (forall l, In l lines -> is_empty_line this l = false ->
     line_number this l = line_number this' l) ->
  NumericSorter_sort this std_sort descending lines
  = NumericSorter_sort this' std_sort descending lines.
Proof.
  intros Hl Hp Hc. unfold NumericSorter_sort.
  rewrite (convert_lines_ext lines Hp Hc).
  unfold numeric_comp. now rewrite Hl.
Qed.
End Overriding.

Lemma stringTakeWhileAdmissable_in (input admissable : generic_string)
    (c : wchar_t) :
  In c (stringTakeWhileAdmissable input admissable) -> In c input.
Proof.
  induction input as [|x input IH]; simpl; [auto|].
  destruct (wmem x admissable); simpl; [|intros []].
  intros [H|H]; auto.
Qed.

Lemma stringTakeWhileAdmissable_all (input admissable : generic_string)
    (c : wchar_t) :
  In c (stringTakeWhileAdmissable input admissable) ->
  wmem c admissable = true.
Proof.
  induction input as [|x input IH]; simpl; [intros []|].
  destruct (wmem x admissable) eqn:E; simpl; [|intros []].
  intros [<-|H]; auto.
Qed.

Lemma stringReplace_absent (subject : generic_string) :
  ~ In 44%N subject -> stringReplace subject (TEXT ",") (TEXT ".") = subject.
Proof.
  unfold stringReplace. induction subject as [|c subject IH]; intros H;
    [reflexivity|].
  assert (Hc : c <> 44%N) by (intros ->; apply H; simpl; auto).
  assert (E : N.eqb 44 c = false) by (apply N.eqb_neq; congruence).
  cbn -[N.eqb]. rewrite E. cbn -[N.eqb]. f_equal. apply IH.
  intros F. apply H. simpl; auto.
Qed.

Lemma wmem_comma_dot (c : wchar_t) :
  c <> 44%N -> c <> 46%N ->
  wmem c (admissable DecimalComma) = wmem c (admissable DecimalDot).
Proof.
  intros H1 H2. apply N.eqb_neq in H1, H2.
  unfold wmem. cbn -[N.eqb]. now rewrite H1, H2.
Qed.

Lemma leading_run_comma_dot (line : generic_string) :
  ~ In 44%N line -> ~ In 46%N line ->
  leading_run DecimalComma line = leading_run DecimalDot line.
Proof.
  unfold leading_run.
  induction line as [|c line IH]; intros H1 H2;
    cbn [stringTakeWhileAdmissable]; [reflexivity|].
  rewrite wmem_comma_dot.
  - destruct (wmem c (admissable DecimalDot)); [|reflexivity].
    f_equal. apply IH; intros F; [apply H1|apply H2]; simpl; auto.
  - intros ->. apply H1. simpl; auto.
  - intros ->. apply H2. simpl; auto.
Qed.

Lemma prepare_comma_dot (line : generic_string) :
  ~ In 44%N line -> ~ In 46%N line ->
  prepareStringForConversion DecimalCommaSorter line
  = prepareStringForConversion DecimalDotSorter line.
Proof.
  intros H1 H2.
  change (prepareStringForConversion DecimalCommaSorter line)
    with (stringReplace (leading_run DecimalComma line)
            (TEXT ",") (TEXT ".")).
  change (prepareStringForConversion DecimalDotSorter line)
    with (leading_run DecimalDot line).
  rewrite stringReplace_absent.
  - now apply leading_run_comma_dot.
  - intros F. apply H1. now apply stringTakeWhileAdmissable_in in F.
Qed.

(** C10.  On lines that hold neither a comma nor a period the decimal-comma
    and the decimal-dot sorters give the same result, in both directions:
    the same output, or the same thrown index. *)
Theorem decimal_sorters_agree_without_separators (std_sort : std_sort_t)
    (descending : bool) (lines : list generic_string) :
  (forall l, In l lines -> ~ In 44%N l /\ ~ In 46%N l) ->
  sort std_sort DecimalComma descending lines
  = sort std_sort DecimalDot descending lines.
Proof.
  intros H. simpl. apply NumericSorter_sort_ext.
  - reflexivity.
  - intros l Hl. destruct (H l Hl). now apply prepare_comma_dot.
  - intros l Hl _. unfold line_number. destruct (H l Hl).
    now rewrite prepare_comma_dot.
Qed.

Lemma decimal_sorters_agree_without_separators_witness :
  sort Libstdcxx.sort DecimalComma true (map TEXT ["12"; "x"; "-7 1"]%string)
  = sort Libstdcxx.sort DecimalDot true (map TEXT ["12"; "x"; "-7 1"]%string).
Proof.
  apply (decimal_sorters_agree_without_separators Libstdcxx.sort true
           (map TEXT ["12"; "x"; "-7 1"]%string)).
  intros l Hl.
  repeat (destruct Hl as [<-|Hl];
          [split; vm_compute; intuition discriminate|]).
  destruct Hl.
Defined.

Lemma blank_run_is_empty (sorter : ISorter) (line : generic_string) :
  sorter <> Lexicographic ->
  forallb (fun c => wmem c blanks) (leading_run sorter line) = true ->
  is_empty sorter line = true.
Proof.
  intros Hs H.
  assert (E : forall s, forallb (fun c => wmem c blanks) s = true ->
            considerStringEmpty s = true).
  { unfold considerStringEmpty. induction s as [|c s IH]; simpl; auto.
    intros F. apply andb_prop in F. destruct F as [F1 F2]. rewrite F1.
    specialize (IH F2). destruct (find_first_not_of s blanks); auto. }
  destruct sorter; try congruence; simpl; unfold is_empty_line; simpl;
    apply E; try exact H.
  unfold leading_run in H. simpl in H.
  rewrite stringReplace_absent; [exact H|].
  intros F. rewrite forallb_forall in H. specialize (H _ F).
  vm_compute in H. discriminate.
Qed.

Lemma inadmissible_first_run (sorter : ISorter) (c : wchar_t)
    (rest : generic_string) :
  wmem c (admissable sorter) = false -> leading_run sorter (c :: rest) = [].
Proof.
  intros H. unfold leading_run. simpl. now rewrite H.
Qed.

Lemma letter_inadmissible (sorter : ISorter) (c : wchar_t) :
  is_letter c = true -> wmem c (admissable sorter) = false.
Proof.
  unfold is_letter. intros H.
  assert (R : (65 <= c <= 90 \/ 97 <= c <= 122)%N).
  { apply orb_prop in H. destruct H as [H|H]; apply andb_prop in H;
      destruct H as [H1 H2]; apply N.leb_le in H1, H2; lia. }
  destruct sorter; unfold wmem; cbn -[N.eqb]; auto;
    repeat (rewrite (proj2 (N.eqb_neq c _)) by lia); reflexivity.
Qed.

(** C9.  For a numeric sorter, a line whose admissible leading run is empty
    or holds white space only (so every line that starts with a letter) is
    set aside as an empty line: [sort] never throws its index, a returned
    output has it among the empty lines and not among the sorted candidates,
    and the result does not depend on what the conversion would make of a
    prepared line without a non-blank character. *)
Theorem blank_lines_are_never_converted (std_sort : std_sort_t)
    (conforms : std_sort_spec std_sort) (sorter : ISorter)
    (line : generic_string) :
  sorter <> Lexicographic ->
  forallb (fun c => wmem c blanks) (leading_run sorter line) = true ->
  is_empty sorter line = true /\
  conversion_fails sorter line = false /\
  (forall c rest,
     (is_letter c = true -> wmem c (admissable sorter) = false) /\
     (wmem c (admissable sorter) = false ->
      leading_run sorter (c :: rest) = [])) /\
  (forall descending lines i,
     nth_error lines i = Some line ->
     sort std_sort sorter descending lines <> Thrown i /\
     forall out,
       sort std_sort sorter descending lines = Returned out ->
       In line (filter (is_empty sorter) lines) /\
       exists sorted,
         out = (if descending
                then sorted ++ filter (is_empty sorter) lines
                else filter (is_empty sorter) lines ++ sorted) /\
         ~ In line sorted) /\
  (forall descending lines to_integer to_double,
     (forall s, considerStringEmpty s = false ->
        to_integer s = stoll s /\ to_double s = stodLocale s) ->
     sort_converting_with std_sort to_integer to_double sorter descending
       lines
     = sort std_sort sorter descending lines).
Proof.
  intros Hs Hrun.
  assert (E : is_empty sorter line = true) by now apply blank_run_is_empty.
  assert (F : conversion_fails sorter line = false).
  { destruct sorter; simpl in *; auto; unfold conversion_throws;
      now rewrite E. }
  split; [exact E|]. split; [exact F|]. split; [|split].
  - intros c rest. split.
    + apply letter_inadmissible.
    + apply inadmissible_first_run.
  - intros descending lines i Hi.
    assert (Hn : nth i lines [] = line) by now apply nth_error_nth.
    assert (Hin : In line lines) by now apply (nth_error_In _ i).
    split.
    + intros T. apply sort_thrown in T. destruct T as [_ [T _]].
      rewrite Hn in T. congruence.
    + intros out H.
      split; [apply filter_In; auto|].
      destruct (sort_returned _ conforms _ _ _ _ H)
        as [sorted [-> [P _]]].
      exists sorted. split; [reflexivity|].
      intros X. apply (Permutation_in _ (Permutation_sym P)) in X.
      apply filter_In in X. destruct X as [_ X]. rewrite E in X.
      discriminate.
  - intros descending lines to_integer to_double H.
    destruct sorter; simpl; try congruence;
      apply NumericSorter_sort_ext; try reflexivity;
      intros l _ El; unfold line_number; simpl; now apply H.
Qed.

Lemma blank_lines_are_never_converted_witness :
  is_empty DecimalDot (TEXT " x.5") = true.
Proof.
  apply (blank_lines_are_never_converted Libstdcxx.sort LibstdcxxFacts.libstdcxx_sort_conforms
           DecimalDot (TEXT " x.5")).
  - discriminate.
  - vm_compute. reflexivity.
Defined.

(** ** Ties and the two directions *)

Lemma Forall2_impl_in {A B : Type} (R R' : A -> B -> Prop)
    (l : list A) (l' : list B) :
  (forall a b, In a l -> In b l' -> R a b -> R' a b) ->
  Forall2 R l l' -> Forall2 R' l l'.
Proof.
  intros H F. induction F as [|a b l l' Hab F IH]; constructor.
  - apply H; simpl; auto.
  - apply IH. intros x y Hx Hy. apply H; simpl; auto.
Qed.

Lemma Forall2_refl_in {A : Type} (R : A -> A -> Prop) (l : list A) :
  (forall a, In a l -> R a a) -> Forall2 R l l.
Proof.
  induction l as [|a l IH]; intros H; constructor.
  - apply H; simpl; auto.
  - apply IH. intros x Hx. apply H; simpl; auto.
Qed.

Lemma filter_app_disjoint {A : Type} (f : A -> bool) (l s : list A) :
  (forall x, In x s -> f x = false) ->
  filter f (filter f l ++ s) = filter f l /\
  filter f (s ++ filter f l) = filter f l.
Proof.
  intros H.
  assert (I : filter f (filter f l) = filter f l).
  { apply filter_all. intros x Hx. now apply filter_In in Hx. }
  rewrite !filter_app, I, (filter_none f s H), app_nil_r. auto.
Qed.

Lemma filter_only {A : Type} (f : A -> bool) (x : A) (l : list A) :
  (forall y, f y = true -> y = x) ->
  filter f l = repeat x (length (filter f l)).
Proof.
  intros H. induction l as [|y l IH]; simpl; [reflexivity|].
  destruct (f y) eqn:E; [|exact IH].
  simpl. rewrite (H y E). now f_equal.
Qed.

Section Directions.
Context {T_Num : Type}.
Variable this : NumericSorter T_Num.
Hypothesis less_ordered : ordered_numbers this.

Lemma line_comp_flip (a b : generic_string) :
  line_comp this true a b = line_comp this false b a.
Proof.
  unfold line_comp.
  destruct (line_number this a), (line_number this b); reflexivity.
Qed.

Lemma line_comp_swo (dom : list generic_string) :
  (forall l, In l dom -> converts (line_number this l) = true) ->
  strict_weak_ordering (line_comp this false) dom.
Proof.
  intros H.
  assert (K : forall l, In l dom ->
            exists k, line_number this l = Converted k).
  { intros l Hl. specialize (H l Hl).
    destruct (line_number this l) as [k| |]; try discriminate.
    now exists k. }
  assert (O : forall x y z kx ky kz,
            line_number this x = Converted kx ->
            line_number this y = Converted ky ->
            line_number this z = Converted kz ->
            strict_weak_ordering (less this) [kx; ky; kz]).
  { intros x y z kx ky kz Hx Hy Hz. apply less_ordered.
    intros k [<-|[<-|[<-|[]]]]; eexists; [apply Hx|apply Hy|apply Hz]. }
  split.
  - intros x Hx. destruct (K x Hx) as [kx Ex].
    unfold line_comp. rewrite Ex.
    apply (swo_irrefl _ _ (O x x x kx kx kx Ex Ex Ex)). simpl; auto.
  - intros x y z Hx Hy Hz.
    destruct (K x Hx) as [kx Ex], (K y Hy) as [ky Ey], (K z Hz) as [kz Ez].
    unfold line_comp. rewrite Ex, Ey, Ez.
    apply (swo_trans _ _ (O x y z kx ky kz Ex Ey Ez)); simpl; auto.
  - intros x y z Hx Hy Hz.
    destruct (K x Hx) as [kx Ex], (K y Hy) as [ky Ey], (K z Hz) as [kz Ez].
    unfold line_comp. rewrite Ex, Ey, Ez.
    apply (swo_incomparable _ _ (O x y z kx ky kz Ex Ey Ez)); simpl; auto.
Qed.

(** The candidates sorted downwards are, read backwards and up to ties, the
    candidates sorted upwards. *)
Lemma numeric_directions (cands up down : list generic_string) :
  (forall l, In l cands ->
     is_empty_line this l = false /\ converts (line_number this l) = true) ->
  Permutation cands up -> Permutation cands down ->
  sorted_by (line_comp this false) up ->
  sorted_by (line_comp this true) down ->
  Forall2 (fun a b => same_number this a b = true) up (rev down).
Proof.
  intros H Pu Pd Su Sd.
  assert (Sr : sorted_by (line_comp this false) (rev down)).
  { apply StronglySorted_rev in Sd. unfold sorted_by.
    eapply StronglySorted_map_in with (f := fun x => x) in Sd.
    - rewrite map_id in Sd. exact Sd.
    - intros a b _ _ E. cbv beta in *. now rewrite <- line_comp_flip. }
  assert (Hu : forall l, In l up -> In l cands)
    by (intros l Hl; now apply (Permutation_in _ (Permutation_sym Pu))).
  assert (Hd : forall l, In l (rev down) -> In l cands).
  { intros l Hl. apply in_rev in Hl.
    now apply (Permutation_in _ (Permutation_sym Pd)). }
  apply (Forall2_impl_in (equivalent (line_comp this false))).
  - intros a b Ha Hb [E1 E2]. unfold same_number.
    destruct (H a (Hu a Ha)) as [-> ->], (H b (Hd b Hb)) as [-> ->].
    now rewrite E1, E2.
  - apply (sorted_perm_equivalent (line_comp this false) up).
    + apply line_comp_swo. intros l Hl. now apply H, Hu.
    + rewrite <- Pu, Pd. apply Permutation_rev.
    + apply incl_refl.
    + exact Su.
    + exact Sr.
Qed.
End Directions.

Lemma tied_lexicographic (a b : generic_string) :
  tied Lexicographic a b = true <-> a = b.
Proof.
  simpl. split.
  - intros H. apply compare_eq. lia.
  - intros ->. rewrite compare_refl. reflexivity.
Qed.

Section TieFacts.
Variable std_sort : std_sort_t.
Hypothesis std_sort_conforms : std_sort_spec std_sort.

(** Candidates of an input without a throwing conversion do convert. *)
Lemma candidates_convert (sorter : ISorter) (lines : list generic_string) :
  (forall l, In l lines -> conversion_fails sorter l = false) ->
  forall l, In l (filter (fun l => negb (is_empty sorter l)) lines) ->
    is_empty sorter l = false /\ conversion_fails sorter l = false.
Proof.
  intros H l Hl. apply filter_In in Hl. destruct Hl as [Hl E].
  split; [|now apply H]. now destruct (is_empty sorter l).
Qed.

Lemma sort_directions (sorter : ISorter) (lines up down : list generic_string) :
  (forall l, In l lines -> conversion_fails sorter l = false) ->
  Permutation (filter (fun l => negb (is_empty sorter l)) lines) up ->
  Permutation (filter (fun l => negb (is_empty sorter l)) lines) down ->
  sorted_by (precedes sorter false) up ->
  sorted_by (precedes sorter true) down ->
  Forall2 (fun a b => tied sorter a b = true) up (rev down) /\
  (sorter = Lexicographic -> down = rev up).
Proof.
  intros H Pu Pd Su Sd.
  assert (C := candidates_convert sorter lines H).
  assert (N : forall T (this : NumericSorter T) l,
            is_empty_line this l = false ->
            conversion_throws this l = false ->
            is_empty_line this l = false /\
            converts (line_number this l) = true).
  { intros T this l E F. split; [exact E|].
    unfold conversion_throws in F. rewrite E in F. simpl in F.
    now destruct (converts (line_number this l)). }
  destruct sorter; simpl in *.
  - assert (E : up = rev down).
    { apply (lexicographic_sorted_unique false); [|exact Su|].
      - rewrite <- Pu, Pd. apply Permutation_rev.
      - apply StronglySorted_rev in Sd. unfold sorted_by.
        eapply StronglySorted_map_in with (f := fun x => x) in Sd.
        + rewrite map_id in Sd. exact Sd.
        + intros a b _ _ E. cbv beta in *.
          now rewrite <- lexicographic_comp_flip. }
    split.
    + rewrite <- E. apply Forall2_refl_in. intros a _.
      rewrite compare_refl. reflexivity.
    + intros _. rewrite E. now rewrite rev_involutive.
  - split; [|discriminate].
    apply (numeric_directions IntegerSorter IntegerSorter_ordered
             (filter (fun l => negb (is_empty_line IntegerSorter l)) lines));
      auto.
    intros l Hl. destruct (C l Hl). now apply N.
  - split; [|discriminate].
    apply (numeric_directions DecimalCommaSorter DecimalCommaSorter_ordered
             (filter (fun l => negb (is_empty_line DecimalCommaSorter l))
                lines)); auto.
    intros l Hl. destruct (C l Hl). now apply N.
  - split; [|discriminate].
    apply (numeric_directions DecimalDotSorter DecimalDotSorter_ordered
             (filter (fun l => negb (is_empty_line DecimalDotSorter l))
                lines)); auto.
    intros l Hl. destruct (C l Hl). now apply N.
Qed.
End TieFacts.

(** C2, as stated: lines that compare equal keep their original relative
    order.  With libstdc++'s [std::sort], which meets the contract of the
    standard, the integer sorter, ascending, reorders seventeen lines that
    all hold the number 7. *)
Lemma seventeen_sevens_reordered :
  std_sort_spec Libstdcxx.sort /\
  sort Libstdcxx.sort Integer false seventeen_sevens
    = Returned seventeen_sevens_sorted /\
  ~ keeps_tied_order Integer seventeen_sevens seventeen_sevens_sorted.
Proof.
  split; [exact LibstdcxxFacts.libstdcxx_sort_conforms|].
  split; [vm_compute; reflexivity|].
  intros H. specialize (H (TEXT "7")). vm_compute in H. discriminate.
Qed.

(** Two lines are enough for an implementation that meets the contract and
    inserts from the last element to the first. *)
Lemma ties_reversed_within_contract :
  std_sort_spec reversing_sort /\
  sort reversing_sort Integer false (map TEXT ["7a"; "7b"]%string)
    = Returned (map TEXT ["7b"; "7a"]%string) /\
  ~ keeps_tied_order Integer (map TEXT ["7a"; "7b"]%string)
      (map TEXT ["7b"; "7a"]%string).
Proof.
  split; [exact reversing_sort_conforms|].
  split; [vm_compute; reflexivity|].
  intros H. specialize (H (TEXT "7")). vm_compute in H. discriminate.
Qed.

(** C2, amended.  Under the lexicographic sorter the lines that compare
    equal are the same text and keep their order.  Under a numeric sorter the
    lines with equal numbers of a returned output are those of the input,
    each as often, in an order that [std::sort] leaves open; the lines set
    aside as empty keep their original relative order. *)
Theorem sort_ties (std_sort : std_sort_t) (conforms : std_sort_spec std_sort)
    (sorter : ISorter) (descending : bool)
    (lines out : list generic_string) :
  sort std_sort sorter descending lines = Returned out ->
  (sorter = Lexicographic -> keeps_tied_order sorter lines out) /\
  (forall x, Permutation (filter (tied sorter x) lines)
                         (filter (tied sorter x) out)) /\
  filter (is_empty sorter) out = filter (is_empty sorter) lines.
Proof.
  intros H.
  assert (P := sort_permutation _ conforms _ _ _ _ H).
  split; [|split].
  - intros -> x.
    rewrite (filter_only (tied Lexicographic x) x out),
            (filter_only (tied Lexicographic x) x lines).
    + f_equal. symmetry. now apply filter_length_perm.
    + intros y Hy. symmetry. now apply tied_lexicographic.
    + intros y Hy. symmetry. now apply tied_lexicographic.
  - intros x. now apply filter_perm.
  - destruct (sort_returned _ conforms _ _ _ _ H) as [sorted [-> [Ps _]]].
    assert (D : forall x, In x sorted -> is_empty sorter x = false).
    { intros x Hx. apply (Permutation_in _ (Permutation_sym Ps)) in Hx.
      apply filter_In in Hx. destruct Hx as [_ Hx].
      now destruct (is_empty sorter x). }
    unfold assemble.
    destruct (filter_app_disjoint (is_empty sorter) lines sorted D).
    now destruct descending.
Qed.

Lemma sort_ties_witness :
  ((Integer = Lexicographic ->
    keeps_tied_order Integer ones_and_twos ones_and_twos_ascending) /\
   (forall x,
      Permutation (filter (tied Integer x) ones_and_twos)
        (filter (tied Integer x) ones_and_twos_ascending)) /\
   filter (is_empty Integer) ones_and_twos_ascending
   = filter (is_empty Integer) ones_and_twos) /\
  ((Lexicographic = Lexicographic ->
    keeps_tied_order Lexicographic (map TEXT ["b"; "a"; "b"; ""; "a"]%string)
      (map TEXT [""; "a"; "a"; "b"; "b"]%string)) /\
   (forall x,
      Permutation
        (filter (tied Lexicographic x)
           (map TEXT ["b"; "a"; "b"; ""; "a"]%string))
        (filter (tied Lexicographic x)
           (map TEXT [""; "a"; "a"; "b"; "b"]%string))) /\
   filter (is_empty Lexicographic) (map TEXT [""; "a"; "a"; "b"; "b"]%string)
   = filter (is_empty Lexicographic)
       (map TEXT ["b"; "a"; "b"; ""; "a"]%string)) /\
  ((Integer = Lexicographic ->
    keeps_tied_order Integer (map TEXT ["7b"; "x"; "7a"; " "; "3"]%string)
      (map TEXT ["7a"; "7b"; "3"; "x"; " "]%string)) /\
   (forall x,
      Permutation
        (filter (tied Integer x)
           (map TEXT ["7b"; "x"; "7a"; " "; "3"]%string))
        (filter (tied Integer x)
           (map TEXT ["7a"; "7b"; "3"; "x"; " "]%string))) /\
   filter (is_empty Integer) (map TEXT ["7a"; "7b"; "3"; "x"; " "]%string)
   = filter (is_empty Integer)
       (map TEXT ["7b"; "x"; "7a"; " "; "3"]%string)).
Proof.
  split; [|split].
  - apply (sort_ties Libstdcxx.sort LibstdcxxFacts.libstdcxx_sort_conforms
             Integer false ones_and_twos).
    vm_compute. reflexivity.
  - apply (sort_ties Libstdcxx.sort LibstdcxxFacts.libstdcxx_sort_conforms
             Lexicographic false (map TEXT ["b"; "a"; "b"; ""; "a"]%string)).
    vm_compute. reflexivity.
  - apply (sort_ties reversing_sort reversing_sort_conforms Integer true
             (map TEXT ["7b"; "x"; "7a"; " "; "3"]%string)).
    vm_compute. reflexivity.
Defined.

(** C8, as stated: in both directions the groups of tied lines keep their
    original internal order.  With libstdc++'s [std::sort] the integer
    sorter puts the lines with the number 2 in one order when ascending and
    in another when descending, neither being the original one. *)
Lemma ones_and_twos_reordered :
  std_sort_spec Libstdcxx.sort /\
  sort Libstdcxx.sort Integer false ones_and_twos
    = Returned ones_and_twos_ascending /\
  sort Libstdcxx.sort Integer true ones_and_twos
    = Returned ones_and_twos_descending /\
  ~ keeps_tied_order Integer ones_and_twos ones_and_twos_ascending /\
  ~ keeps_tied_order Integer ones_and_twos ones_and_twos_descending /\
  filter (tied Integer (TEXT "2")) ones_and_twos_ascending
    <> filter (tied Integer (TEXT "2")) ones_and_twos_descending.
Proof.
  split; [exact LibstdcxxFacts.libstdcxx_sort_conforms|].
  split; [vm_compute; reflexivity|].
  split; [vm_compute; reflexivity|].
  split; [|split].
  - intros H. specialize (H (TEXT "2")). vm_compute in H. discriminate.
  - intros H. specialize (H (TEXT "2")). vm_compute in H. discriminate.
  - vm_compute. discriminate.
Qed.

(** C8, amended.  The two directions throw the same index or both return.
    The lines set aside as empty come first, in their original order, when
    ascending and last when descending; the candidates of the descending
    output are the candidates of the ascending output read backwards, up to
    the order inside a group of tied lines, which [std::sort] leaves open.
    Under the lexicographic sorter the descending output is the ascending
    output reversed. *)
Theorem sort_direction_symmetry (std_sort : std_sort_t)
    (conforms : std_sort_spec std_sort) (sorter : ISorter)
    (lines : list generic_string) :
  (forall i, sort std_sort sorter false lines = Thrown i <->
             sort std_sort sorter true lines = Thrown i) /\
  (forall up_out down_out,
     sort std_sort sorter false lines = Returned up_out ->
     sort std_sort sorter true lines = Returned down_out ->
     exists up down,
       up_out = filter (is_empty sorter) lines ++ up /\
       down_out = down ++ filter (is_empty sorter) lines /\
       Permutation up down /\
       Forall2 (fun a b => tied sorter a b = true) up (rev down) /\
       (sorter = Lexicographic -> down_out = rev up_out)).
Proof.
  split.
  - intros i. now rewrite !sort_thrown.
  - intros up_out down_out Hu Hd.
    destruct (sort_returned _ conforms _ _ _ _ Hu)
      as [up [-> [Pu [Su NF]]]].
    destruct (sort_returned _ conforms _ _ _ _ Hd)
      as [down [-> [Pd [Sd _]]]].
    destruct (sort_directions sorter lines up down NF Pu Pd Su Sd)
      as [F L].
    exists up, down. unfold assemble. repeat split; auto.
    + now rewrite <- Pu.
    + intros E. rewrite (L E). subst sorter.
      rewrite (filter_none (is_empty Lexicographic)) by reflexivity.
      simpl. now rewrite app_nil_r.
Qed.

Lemma sort_direction_symmetry_witness :
  exists up down,
    map TEXT [""; "-5"; "2"; "10"]%string
      = filter (is_empty Integer) integer_example ++ up /\
    map TEXT ["10"; "2"; "-5"; ""]%string
      = down ++ filter (is_empty Integer) integer_example /\
    Permutation up down /\
    Forall2 (fun a b => tied Integer a b = true) up (rev down) /\
    (Integer = Lexicographic ->
     map TEXT ["10"; "2"; "-5"; ""]%string
     = rev (map TEXT [""; "-5"; "2"; "10"]%string)).
Proof.
  apply (proj2 (sort_direction_symmetry Libstdcxx.sort LibstdcxxFacts.libstdcxx_sort_conforms
                  Integer integer_example)); vm_compute; reflexivity.
Defined.

(** ** The conversion of the integer sorter *)

Lemma skip_whitespace_split (s : generic_string) :
  exists ws, s = ws ++ skip_whitespace s /\ forallb isspace ws = true.
Proof.
  induction s as [|c s [ws [E F]]]; cbn [skip_whitespace].
  - exists []. auto.
  - destruct (isspace c) eqn:C.
    + exists (c :: ws). cbn [forallb app]. rewrite C, F.
      split; [now f_equal|reflexivity].
    + exists []. auto.
Qed.

Lemma skip_whitespace_app (ws t : generic_string) :
  forallb isspace ws = true ->
  skip_whitespace (ws ++ t) = skip_whitespace t.
Proof.
  induction ws as [|c ws IH]; cbn [forallb app skip_whitespace];
    [reflexivity|].
  intros H. apply andb_prop in H. destruct H as [-> H]. now apply IH.
Qed.

Lemma span_digits_split (s ds rest : generic_string) :
  span_digits s = (ds, rest) ->
  s = ds ++ rest /\ forallb isdigit ds = true /\
  (forall c rest', rest = c :: rest' -> isdigit c = false).
Proof.
  revert ds rest. induction s as [|c s IH]; cbn [span_digits];
    intros ds rest H.
  - injection H as <- <-. repeat split. discriminate.
  - destruct (isdigit c) eqn:C.
    + destruct (span_digits s) as [ds' tl] eqn:E. injection H as <- <-.
      destruct (IH ds' tl eq_refl) as [-> [F R]].
      cbn [forallb app]. rewrite C, F. auto.
    + injection H as <- <-. repeat split.
      intros c' rest' [= -> ->]. exact C.
Qed.

Lemma span_digits_app (digits rest : generic_string) :
  forallb isdigit digits = true ->
  (forall c rest', rest = c :: rest' -> isdigit c = false) ->
  span_digits (digits ++ rest) = (digits, rest).
Proof.
  intros F R. induction digits as [|c digits IH]; cbn [app span_digits].
  - destruct rest as [|c rest']; [reflexivity|]. cbn [span_digits].
    now rewrite (R c rest' eq_refl).
  - cbn [forallb] in F. apply andb_prop in F. destruct F as [-> F].
    now rewrite (IH F).
Qed.

Lemma digit_not_space (c : wchar_t) : isdigit c = true -> isspace c = false.
Proof.
  unfold isdigit, isspace. intros H. apply andb_prop in H.
  destruct H as [H1 H2]. apply N.leb_le in H1, H2.
  destruct (N.eqb_spec c 32); [lia|].
  destruct (N.leb_spec 9 c), (N.leb_spec c 13); simpl; auto; lia.
Qed.

(** A numeral at the front is the one that [stoll] reads. *)
Lemma stoll_leading_numeral (text : generic_string) (v : Z) :
  leading_numeral text v ->
  stoll text = if (LLONG_MIN <=? v) && (v <=? LLONG_MAX) then Converted v
               else out_of_range.
Proof.
  intros [ws [sign [digits [rest [-> [W [S [N [D [R ->]]]]]]]]]].
  unfold stoll. rewrite (skip_whitespace_app ws _ W).
  destruct digits as [|d digits]; [congruence|].
  assert (Dd : isdigit d = true) by (simpl in D; now apply andb_prop in D).
  assert (Rd : (48 <= d <= 57)%N).
  { unfold isdigit in Dd. apply andb_prop in Dd. destruct Dd as [H1 H2].
    apply N.leb_le in H1, H2. lia. }
  destruct S as [-> | ->].
  - cbn [app skip_whitespace]. rewrite (digit_not_space d Dd).
    unfold parse_sign.
    rewrite (proj2 (N.eqb_neq d 45%N)), (proj2 (N.eqb_neq d 43%N)) by lia.
    cbv beta match.
    assert (Sp := span_digits_app (d :: digits) rest D R).
    cbn [app] in Sp. rewrite Sp. reflexivity.
  - change (TEXT "-") with [45%N]. cbn [app skip_whitespace].
    change (isspace 45%N) with false. cbv match.
    assert (Sp := span_digits_app (d :: digits) rest D R).
    cbn [app] in Sp.
    change (parse_sign (45%N :: d :: digits ++ rest))
      with (true, d :: digits ++ rest).
    cbv beta match. rewrite Sp. reflexivity.
Qed.

Lemma prepared_integer_chars (line : generic_string) (c : wchar_t) :
  In c (prepareStringForConversion IntegerSorter line) -> c <> 43%N.
Proof.
  intros H. apply stringTakeWhileAdmissable_all in H.
  intros ->. vm_compute in H. discriminate.
Qed.

(** What [stoll] reads from a prepared line is a numeral at its front. *)
Lemma stoll_reads_numeral (text : generic_string) :
  (forall c, In c text -> c <> 43%N) ->
  match stoll text with
  | Converted k => leading_numeral text k /\ LLONG_MIN <= k <= LLONG_MAX
  | out_of_range =>
      exists v, leading_numeral text v /\ ~ (LLONG_MIN <= v <= LLONG_MAX)
  | invalid_argument => True
  end.
Proof.
  intros NP. unfold stoll.
  destruct (skip_whitespace_split text) as [ws [E W]].
  destruct (parse_sign (skip_whitespace text)) as [negative s] eqn:P.
  destruct (span_digits s) as [ds rest] eqn:Sp.
  destruct (span_digits_split _ _ _ Sp) as [-> [D R]].
  destruct ds as [|d ds]; [exact I|].
  remember (d :: ds) as digits eqn:Hd.
  assert (Hn : digits <> []) by (subst digits; discriminate).
  assert (L : leading_numeral text
                (if negative then - digits_value digits
                 else digits_value digits)).
  { exists ws, (if negative then TEXT "-" else []), digits, rest.
    unfold parse_sign in P.
    destruct (skip_whitespace text) as [|c t] eqn:K.
    - injection P as _ P2. destruct digits; [congruence|discriminate P2].
    - assert (C : c <> 43%N).
      { apply NP. rewrite E. apply in_or_app. right. simpl; auto. }
      assert (Q : (negative = true /\ c = 45%N /\ t = digits ++ rest) \/
                  (negative = false /\ c :: t = digits ++ rest)).
      { destruct (N.eqb_spec c 45%N) as [->|_].
        - injection P as P1 P2. subst negative. auto.
        - destruct (N.eqb_spec c 43%N); [congruence|].
          injection P as P1 P2. subst negative. auto. }
      destruct Q as [[-> [-> ->]]|[-> Q]].
      + repeat split; auto; try discriminate.
      + rewrite Q in E. repeat split; auto; discriminate. }
  destruct ((LLONG_MIN <=? _) && (_ <=? LLONG_MAX)) eqn:B.
  - split; [exact L|]. apply andb_prop in B. lia.
  - eexists. split; [exact L|]. intros F.
    apply andb_false_iff in B. lia.
Qed.

(** C5, as stated: malformed stripped text raises the conversion failure.
    The line "2021-03-04" is stripped to itself, which is no numeral, and the
    conversion gives 2021; likewise "12 34" gives 12. *)
Lemma date_line_converts :
  prepareStringForConversion IntegerSorter date_line = date_line /\
  is_empty Integer date_line = false /\
  well_formed_integer date_line = false /\
  convertStringToNumber IntegerSorter date_line = Converted 2021 /\
  conversion_fails Integer date_line = false /\
  prepareStringForConversion IntegerSorter (TEXT "12 34") = TEXT "12 34" /\
  well_formed_integer (TEXT "12 34") = false /\
  convertStringToNumber IntegerSorter (TEXT "12 34") = Converted 12.
Proof.
  repeat split; vm_compute; reflexivity.
Qed.

(** C5, amended.  The integer sorter converts the numeral at the front of
    the stripped text -- white space, an optional minus sign, the longest
    run of digits -- to its base-10 value as a signed 64-bit integer, and
    ignores what follows the numeral.  The conversion throws exactly when the
    stripped text has no numeral at its front or the value of that numeral is
    outside the signed 64-bit range; so a candidate line has a number in
    that range or makes the call fail. *)
Theorem integer_conversion (line : generic_string) :
  let text := prepareStringForConversion IntegerSorter line in
  (forall k, convertStringToNumber IntegerSorter text = Converted k <->
     leading_numeral text k /\ LLONG_MIN <= k <= LLONG_MAX) /\
  (convertStringToNumber IntegerSorter text = out_of_range <->
     exists v, leading_numeral text v /\ ~ (LLONG_MIN <= v <= LLONG_MAX)) /\
  (convertStringToNumber IntegerSorter text = invalid_argument <->
     ~ exists v, leading_numeral text v) /\
  (is_empty Integer line = false ->
   (exists k, line_number IntegerSorter line = Converted k /\
              LLONG_MIN <= k <= LLONG_MAX) \/
   conversion_fails Integer line = true).
Proof.
  intros text.
  assert (A := stoll_reads_numeral text (prepared_integer_chars line)).
  assert (B := stoll_leading_numeral text).
  change (convertStringToNumber IntegerSorter text) with (stoll text).
  assert (In_range : forall v, LLONG_MIN <= v <= LLONG_MAX ->
            (LLONG_MIN <=? v) && (v <=? LLONG_MAX) = true)
    by (intros v Hv; apply andb_true_intro; lia).
  assert (Out_range : forall v, ~ (LLONG_MIN <= v <= LLONG_MAX) ->
            (LLONG_MIN <=? v) && (v <=? LLONG_MAX) = false)
    by (intros v Hv; apply andb_false_iff; lia).
  split; [|split; [|split]].
  - intros k. split.
    + intros E. rewrite E in A. exact A.
    + intros [L R]. rewrite (B k L). now rewrite In_range.
  - split.
    + intros E. rewrite E in A. exact A.
    + intros [v [L R]]. rewrite (B v L). now rewrite Out_range.
  - split.
    + intros E [v L]. rewrite (B v L) in E.
      destruct ((LLONG_MIN <=? v) && (v <=? LLONG_MAX)); discriminate.
    + intros N. destruct (stoll text) as [k| |]; auto.
      * exfalso. apply N. exists k. apply A.
      * exfalso. apply N. destruct A as [v [L _]]. now exists v.
  - intros E.
    change (is_empty Integer line) with (is_empty_line IntegerSorter line)
      in E.
    change (conversion_fails Integer line)
      with (conversion_throws IntegerSorter line).
    unfold conversion_throws. rewrite E.
    change (line_number IntegerSorter line) with (stoll text).
    destruct (stoll text) as [k| |]; cbn [converts negb andb]; auto.
    left. exists k. split; [reflexivity|apply A].
Qed.

(** * Further properties of the sorters *)

(** ** The loop of [NumericSorter::sort] *)

Section LoopRecords.
Context {T_Num : Type}.
Variable this : NumericSorter T_Num.

Lemma convert_lines_records (rest : list generic_string) :
  forall i ne em ne' em',
    convert_lines this i rest ne em = LoopDone ne' em' ->
    exists cs,
      ne' = ne ++ cs /\
      StronglySorted lt (map fst cs) /\
      Forall (fun p =>
                (i <= fst p)%nat /\
                exists line,
                  nth_error rest (fst p - i) = Some line /\
                  is_empty_line this line = false /\
                  line_number this line = Converted (snd p)) cs.
Proof.
  induction rest as [|line rest IH]; intros i ne em ne' em' H; simpl in H.
  - injection H as <- <-. exists []. rewrite app_nil_r.
    repeat split; constructor.
  - assert (Shift : forall p : nat * T_Num, (S i <= fst p)%nat ->
              nth_error (line :: rest) (fst p - i)
              = nth_error rest (fst p - S i)).
    { intros p Hp. replace (fst p - i)%nat with (S (fst p - S i)) by lia.
      reflexivity. }
    change (considerStringEmpty (prepareStringForConversion this line))
      with (is_empty_line this line) in H.
    destruct (is_empty_line this line) eqn:E.
    + apply IH in H. destruct H as [cs [Hn [Hs Hf]]].
      exists cs. split; [exact Hn|]. split; [exact Hs|].
      rewrite Forall_forall in Hf. apply Forall_forall. intros p Hp.
      destruct (Hf p Hp) as [H1 [l [H2 H3]]].
      split; [lia|]. exists l. now rewrite Shift.
    + change (convertStringToNumber this
                (prepareStringForConversion this line))
        with (line_number this line) in H.
      destruct (line_number this line) as [number| |] eqn:C;
        try discriminate.
      apply IH in H. destruct H as [cs [Hn [Hs Hf]]].
      rewrite Forall_forall in Hf.
      exists ((i, number) :: cs). split; [now rewrite Hn, <- app_assoc|].
      split.
      * simpl. constructor; [exact Hs|]. apply Forall_forall.
        intros k Hk. apply in_map_iff in Hk. destruct Hk as [p [<- Hp]].
        destruct (Hf p Hp) as [H1 _]. lia.
      * constructor.
        -- simpl. rewrite Nat.sub_diag. split; [lia|].
           exists line. auto.
        -- apply Forall_forall. intros p Hp.
           destruct (Hf p Hp) as [H1 [l [H2 H3]]].
           split; [lia|]. exists l. now rewrite Shift.
Qed.

(** X1.  The first assertion of [NumericSorter::sort] holds whenever the
    loop completes: the converted lines and the lines set aside are, together,
    as many as the input lines. *)
Theorem loop_accounts_for_every_line (lines : list generic_string)
    (nonEmptyInputAsNumbers : list (nat * T_Num))
    (empties : list generic_string) :
  convert_lines this 0 lines [] [] = LoopDone nonEmptyInputAsNumbers empties ->
  (length nonEmptyInputAsNumbers + length empties = length lines)%nat.
Proof.
  intros H. apply convert_lines_sizes in H. simpl in H. exact H.
Qed.

(** X2.  What the loop records: the line indices are strictly increasing,
    each one is the index of an input line that is a candidate, and the number
    stored with it is the conversion of that very line. *)
Theorem loop_records_candidates (lines : list generic_string)
    (nonEmptyInputAsNumbers : list (nat * T_Num))
    (empties : list generic_string) :
  convert_lines this 0 lines [] [] = LoopDone nonEmptyInputAsNumbers empties ->
  StronglySorted lt (map fst nonEmptyInputAsNumbers) /\
  Forall (fun p =>
            exists line,
              nth_error lines (fst p) = Some line /\
              is_empty_line this line = false /\
              line_number this line = Converted (snd p))
         nonEmptyInputAsNumbers.
Proof.
  intros H. apply convert_lines_records in H.
  destruct H as [cs [-> [Hs Hf]]]. simpl. split; [exact Hs|].
  apply Forall_forall. intros p Hp. rewrite Forall_forall in Hf.
  destruct (Hf p Hp) as [_ [l Hl]]. rewrite Nat.sub_0_r in Hl.
  now exists l.
Qed.

Variable std_sort : std_sort_t.
Hypothesis std_sort_conforms : std_sort_spec std_sort.
Hypothesis less_ordered : ordered_numbers this.

(** X3.  Every index that the output loop reads with
    [lines[sortedNumber.first]] lies inside [lines]: [std::sort] only
    rearranges the recorded pairs. *)
Theorem sorted_indices_in_bounds (isDescending : bool)
    (lines : list generic_string)
    (nonEmptyInputAsNumbers : list (nat * T_Num))
    (empties : list generic_string) :
  convert_lines this 0 lines [] [] = LoopDone nonEmptyInputAsNumbers empties ->
  Forall (fun sortedNumber => (fst sortedNumber < length lines)%nat)
    (std_sort _ (numeric_comp this isDescending) nonEmptyInputAsNumbers).
Proof.
  intros H. apply convert_lines_records in H.
  destruct H as [cs [-> [_ Hf]]]. simpl. rewrite Forall_forall in Hf.
  destruct (std_sort_conforms _ (numeric_comp this isDescending) cs)
    as [P _].
  - apply numeric_comp_swo; [exact less_ordered|]. intros p Hp.
    destruct (Hf p Hp) as [_ [l [_ [_ E]]]]. eexists. exact E.
  - apply Forall_forall. intros p Hp.
    apply (Permutation_in _ (Permutation_sym P)) in Hp.
    destruct (Hf p Hp) as [_ [l [E _]]]. rewrite Nat.sub_0_r in E.
    apply nth_error_Some. congruence.
Qed.
End LoopRecords.

Lemma loop_accounts_for_every_line_witness :
  (length integer_example_numbers + length [TEXT ""]
   = length integer_example)%nat.
Proof.
  apply (loop_accounts_for_every_line IntegerSorter integer_example).
  vm_compute. reflexivity.
Defined.

Lemma loop_records_candidates_witness :
  StronglySorted lt (map fst integer_example_numbers) /\
  Forall (fun p =>
            exists line,
              nth_error integer_example (fst p) = Some line /\
              is_empty_line IntegerSorter line = false /\
              line_number IntegerSorter line = Converted (snd p))
         integer_example_numbers.
Proof.
  apply (loop_records_candidates IntegerSorter integer_example _ [TEXT ""]).
  vm_compute. reflexivity.
Defined.

Lemma sorted_indices_in_bounds_witness :
  Forall (fun sortedNumber => (fst sortedNumber < length integer_example)%nat)
    (Libstdcxx.sort _ (numeric_comp IntegerSorter true)
       integer_example_numbers).
Proof.
  apply (sorted_indices_in_bounds IntegerSorter Libstdcxx.sort
           LibstdcxxFacts.libstdcxx_sort_conforms IntegerSorter_ordered
           true integer_example _ [TEXT ""]).
  vm_compute. reflexivity.
Defined.

(** ** The comparisons and [std::sort] *)

(** X4.  [std::sort] is never called outside of its precondition: the
    comparison of the lexicographic sorter is a strict weak ordering on any
    lines, and the comparison of each numeric sorter is one on the pairs that
    its loop has recorded, in both directions. *)
Theorem comparisons_are_strict_weak_orderings :
  (forall descending lines,
     strict_weak_ordering (lexicographic_comp descending) lines) /\
  (forall descending lines ne em,
     convert_lines IntegerSorter 0 lines [] [] = LoopDone ne em ->
     strict_weak_ordering (numeric_comp IntegerSorter descending) ne) /\
  (forall descending lines ne em,
     convert_lines DecimalCommaSorter 0 lines [] [] = LoopDone ne em ->
     strict_weak_ordering (numeric_comp DecimalCommaSorter descending) ne) /\
  (forall descending lines ne em,
     convert_lines DecimalDotSorter 0 lines [] [] = LoopDone ne em ->
     strict_weak_ordering (numeric_comp DecimalDotSorter descending) ne).
Proof.
  assert (G : forall T (this : NumericSorter T),
            ordered_numbers this ->
            forall descending lines ne em,
              convert_lines this 0 lines [] [] = LoopDone ne em ->
              strict_weak_ordering (numeric_comp this descending) ne).
  { intros T this O descending lines ne em H.
    apply convert_lines_records in H. destruct H as [cs [-> [_ Hf]]].
    simpl. rewrite Forall_forall in Hf.
    apply numeric_comp_swo; [exact O|]. intros p Hp.
    destruct (Hf p Hp) as [_ [l [_ [_ E]]]]. eexists. exact E. }
  split; [exact lexicographic_comp_swo|].
  split; [apply G, IntegerSorter_ordered|].
  split; [apply G, DecimalCommaSorter_ordered|].
  apply G, DecimalDotSorter_ordered.
Qed.

(** ** The lexicographic sorter *)

Lemma StronglySorted_equiv {A : Type} (R R' : A -> A -> Prop) (l : list A) :
  (forall a b, R a b <-> R' a b) ->
  StronglySorted R l <-> StronglySorted R' l.
Proof.
  intros E. split; intros H; induction H as [|a l H IH F];
    constructor; auto; apply Forall_forall; intros b Hb;
    rewrite Forall_forall in F; apply E; auto.
Qed.

Lemma lexicographic_sorted_compare (descending : bool)
    (l : list generic_string) :
  sorted_by (lexicographic_comp descending) l <->
  StronglySorted
    (fun a b => if descending then 0 <= compare a b else compare a b <= 0) l.
Proof.
  apply StronglySorted_equiv. intros a b.
  unfold lexicographic_comp. rewrite (compare_antisym a b).
  destruct descending; lia.
Qed.

(** X5.  [LexicographicSorter::sort] never fails and puts the lines in the
    order of [compare]: no line of the output is greater (ascending), or
    smaller (descending), than a line before it. *)
Theorem lexicographic_output_is_ordered (std_sort : std_sort_t)
    (conforms : std_sort_spec std_sort) (isDescending : bool)
    (lines : list generic_string) :
  exists output,
    LexicographicSorter_sort std_sort isDescending lines = Returned output /\
    Permutation lines output /\
    StronglySorted
      (fun a b => if isDescending then 0 <= compare a b
                  else compare a b <= 0) output.
Proof.
  destruct (conforms _ (lexicographic_comp isDescending) lines
              (lexicographic_comp_swo isDescending lines)) as [P S].
  eexists. split; [reflexivity|]. split; [exact P|].
  now apply lexicographic_sorted_compare.
Qed.

Lemma lexicographic_output_is_ordered_witness :
  exists output,
    LexicographicSorter_sort Libstdcxx.sort true
      (map TEXT ["banana"; "apple"; "cherry"]%string) = Returned output /\
    Permutation (map TEXT ["banana"; "apple"; "cherry"]%string) output /\
    StronglySorted (fun a b => 0 <= compare a b) output.
Proof.
  apply (lexicographic_output_is_ordered Libstdcxx.sort
           LibstdcxxFacts.libstdcxx_sort_conforms true).
Defined.

(** X6.  The output of the lexicographic sorter depends on nothing but the
    lines it is given, in whatever order: two implementations of
    [std::sort] that meet the standard, run on two arrangements of the same
    lines, give the same output. *)
Theorem lexicographic_output_is_unique (std_sort std_sort' : std_sort_t)
    (conforms : std_sort_spec std_sort)
    (conforms' : std_sort_spec std_sort') (isDescending : bool)
    (lines lines' : list generic_string) :
  Permutation lines lines' ->
  LexicographicSorter_sort std_sort isDescending lines
  = LexicographicSorter_sort std_sort' isDescending lines'.
Proof.
  intros P. unfold LexicographicSorter_sort. f_equal.
  destruct (conforms _ (lexicographic_comp isDescending) lines
              (lexicographic_comp_swo isDescending lines)) as [P1 S1].
  destruct (conforms' _ (lexicographic_comp isDescending) lines'
              (lexicographic_comp_swo isDescending lines')) as [P2 S2].
  apply (lexicographic_sorted_unique isDescending); auto.
  apply (Permutation_trans (Permutation_sym P1)).
  apply (Permutation_trans P). exact P2.
Qed.

Lemma lexicographic_output_is_unique_witness :
  LexicographicSorter_sort Libstdcxx.sort false
    (map TEXT ["b"; "a"; "b"; ""]%string)
  = LexicographicSorter_sort stable_sort false
      (map TEXT [""; "b"; "b"; "a"]%string).
Proof.
  apply (lexicographic_output_is_unique Libstdcxx.sort stable_sort
           LibstdcxxFacts.libstdcxx_sort_conforms stable_sort_conforms false).
  change (map TEXT ["b"; "a"; "b"; ""]%string)
    with [TEXT "b"; TEXT "a"; TEXT "b"; TEXT ""].
  change (map TEXT [""; "b"; "b"; "a"]%string)
    with [TEXT ""; TEXT "b"; TEXT "b"; TEXT "a"].
  apply (Permutation_trans (l' := [TEXT "b"; TEXT "b"; TEXT "a"; TEXT ""])).
  - constructor. apply perm_swap.
  - symmetry.
    apply (Permutation_cons_append [TEXT "b"; TEXT "b"; TEXT "a"] (TEXT "")).
Defined.

(** X7.  Lines that are in order already come back unchanged from the
    lexicographic sorter; so sorting its output once more changes
    nothing. *)
Theorem lexicographic_sort_keeps_ordered_lines (std_sort : std_sort_t)
    (conforms : std_sort_spec std_sort) (isDescending : bool)
    (lines : list generic_string) :
  (StronglySorted
     (fun a b => if isDescending then 0 <= compare a b
                 else compare a b <= 0) lines ->
   LexicographicSorter_sort std_sort isDescending lines = Returned lines) /\
  (forall output,
     LexicographicSorter_sort std_sort isDescending lines = Returned output ->
     LexicographicSorter_sort std_sort isDescending output
     = Returned output).
Proof.
  assert (F : forall l, sorted_by (lexicographic_comp isDescending) l ->
            LexicographicSorter_sort std_sort isDescending l = Returned l).
  { intros l S. unfold LexicographicSorter_sort. f_equal.
    destruct (conforms _ (lexicographic_comp isDescending) l
                (lexicographic_comp_swo isDescending l)) as [P1 S1].
    apply (lexicographic_sorted_unique isDescending); auto.
    now symmetry. }
  split.
  - intros S. apply F. now apply lexicographic_sorted_compare.
  - intros output H. apply F. injection H as <-.
    apply (conforms _ (lexicographic_comp isDescending) lines
             (lexicographic_comp_swo isDescending lines)).
Qed.

Lemma lexicographic_sort_keeps_ordered_lines_witness :
  LexicographicSorter_sort Libstdcxx.sort true
    (map TEXT ["cherry"; "banana"; "apple"]%string)
  = Returned (map TEXT ["cherry"; "banana"; "apple"]%string).
Proof.
  apply (proj2 (lexicographic_sort_keeps_ordered_lines Libstdcxx.sort
                  LibstdcxxFacts.libstdcxx_sort_conforms true
                  (map TEXT ["banana"; "apple"; "cherry"]%string))).
  vm_compute. reflexivity.
Defined.

(** ** What the output owes to [std::sort] *)

Section Arrangements.
Context {T_Num : Type}.
Variable this : NumericSorter T_Num.
Hypothesis less_ordered : ordered_numbers this.

(** Two sorted arrangements of the candidates agree up to ties. *)
Lemma numeric_arrangements (descending : bool)
    (cands a b : list generic_string) :
  (forall l, In l cands ->
     is_empty_line this l = false /\ converts (line_number this l) = true) ->
  Permutation cands a -> Permutation cands b ->
  sorted_by (line_comp this descending) a ->
  sorted_by (line_comp this descending) b ->
  Forall2 (fun x y => same_number this x y = true) a b.
Proof.
  intros H Pa Pb Sa Sb.
  assert (Ha : forall l, In l a -> In l cands)
    by (intros l Hl; now apply (Permutation_in _ (Permutation_sym Pa))).
  assert (Hb : forall l, In l b -> In l cands)
    by (intros l Hl; now apply (Permutation_in _ (Permutation_sym Pb))).
  assert (W : strict_weak_ordering (line_comp this descending) a).
  { assert (W0 : strict_weak_ordering (line_comp this false) a).
    { apply line_comp_swo; [exact less_ordered|].
      intros l Hl. now apply H, Ha. }
    destruct descending; [|exact W0].
    apply (swo_ext (fun x y => line_comp this false y x)).
    - apply line_comp_flip.
    - now apply swo_flip. }
  apply (Forall2_impl_in (equivalent (line_comp this descending))).
  - intros x y Hx Hy [E1 E2]. unfold same_number.
    destruct (H x (Ha x Hx)) as [-> ->], (H y (Hb y Hy)) as [-> ->].
    destruct descending.
    + rewrite line_comp_flip in E1, E2. now rewrite E1, E2.
    + now rewrite E1, E2.
  - apply (sorted_perm_equivalent (line_comp this descending) a).
    + exact W.
    + apply (Permutation_trans (Permutation_sym Pa)). exact Pb.
    + apply incl_refl.
    + exact Sa.
    + exact Sb.
Qed.
End Arrangements.

Lemma sort_arrangements (sorter : ISorter) (descending : bool)
    (lines a b : list generic_string) :
  (forall l, In l lines -> conversion_fails sorter l = false) ->
  Permutation (filter (fun l => negb (is_empty sorter l)) lines) a ->
  Permutation (filter (fun l => negb (is_empty sorter l)) lines) b ->
  sorted_by (precedes sorter descending) a ->
  sorted_by (precedes sorter descending) b ->
  Forall2 (fun x y => tied sorter x y = true) a b.
Proof.
  intros H Pa Pb Sa Sb.
  assert (C := candidates_convert sorter lines H).
  assert (N : forall T (this : NumericSorter T) l,
            is_empty_line this l = false ->
            conversion_throws this l = false ->
            is_empty_line this l = false /\
            converts (line_number this l) = true).
  { intros T this l E F. split; [exact E|].
    unfold conversion_throws in F. rewrite E in F. simpl in F.
    now destruct (converts (line_number this l)). }
  destruct sorter; simpl in *.
  - assert (E : a = b).
    { apply (lexicographic_sorted_unique descending); auto.
      apply (Permutation_trans (Permutation_sym Pa)). exact Pb. }
    rewrite <- E. apply Forall2_refl_in. intros x _.
    rewrite compare_refl. reflexivity.
  - apply (numeric_arrangements IntegerSorter IntegerSorter_ordered
             descending
             (filter (fun l => negb (is_empty_line IntegerSorter l)) lines));
      auto.
    intros l Hl. destruct (C l Hl). now apply N.
  - apply (numeric_arrangements DecimalCommaSorter
             DecimalCommaSorter_ordered descending
             (filter (fun l => negb (is_empty_line DecimalCommaSorter l))
                lines)); auto.
    intros l Hl. destruct (C l Hl). now apply N.
  - apply (numeric_arrangements DecimalDotSorter DecimalDotSorter_ordered
             descending
             (filter (fun l => negb (is_empty_line DecimalDotSorter l))
                lines)); auto.
    intros l Hl. destruct (C l Hl). now apply N.
Qed.

(** X8.  Apart from the order of the lines set aside as empty, the result
    owes nothing to the order of the input or to the implementation of
    [std::sort] but the order inside groups of tied lines: of two
    implementations that meet the standard, run on two arrangements of the
    same lines, either both throw a line index or both have an output; the
    two outputs then have the same lines set aside and, place by place,
    candidates that are tied. *)
Theorem output_is_fixed_up_to_ties (std_sort std_sort' : std_sort_t)
    (conforms : std_sort_spec std_sort)
    (conforms' : std_sort_spec std_sort') (sorter : ISorter)
    (isDescending : bool) (lines lines' : list generic_string) :
  Permutation lines lines' ->
  (exists lineIndex lineIndex',
     sort std_sort sorter isDescending lines = Thrown lineIndex /\
     sort std_sort' sorter isDescending lines' = Thrown lineIndex') \/
  (exists sorted sorted',
     sort std_sort sorter isDescending lines
     = Returned (if isDescending
                 then sorted ++ filter (is_empty sorter) lines
                 else filter (is_empty sorter) lines ++ sorted) /\
     sort std_sort' sorter isDescending lines'
     = Returned (if isDescending
                 then sorted' ++ filter (is_empty sorter) lines'
                 else filter (is_empty sorter) lines' ++ sorted') /\
     Forall2 (fun a b => tied sorter a b = true) sorted sorted' /\
     Permutation (filter (is_empty sorter) lines)
       (filter (is_empty sorter) lines')).
Proof.
  intros P.
  destruct (sort std_sort sorter isDescending lines) as [output|i] eqn:H.
  - right.
    destruct (sort_returned _ conforms _ _ _ _ H)
      as [sorted [-> [Ps [S NF]]]].
    assert (NF' : forall l, In l lines' -> conversion_fails sorter l = false).
    { intros l Hl. apply NF.
      now apply (Permutation_in _ (Permutation_sym P)). }
    destruct (sort_returns std_sort' sorter isDescending lines' NF')
      as [output' H'].
    destruct (sort_returned _ conforms' _ _ _ _ H')
      as [sorted' [-> [Ps' [S' _]]]].
    exists sorted, sorted'. split; [reflexivity|]. split; [exact H'|].
    split; [|now apply filter_perm].
    apply (sort_arrangements sorter isDescending lines); auto.
    apply (Permutation_trans (filter_perm _ _ _ P)). exact Ps'.
  - left. exists i.
    destruct (sort std_sort' sorter isDescending lines') as [output'|i'] eqn:H'.
    + exfalso.
      destruct (sort_returned _ conforms' _ _ _ _ H') as [_ [_ [_ [_ NF']]]].
      apply sort_thrown in H. destruct H as [Hi [Hf _]].
      rewrite (NF' (nth i lines [])) in Hf; [discriminate Hf|].
      apply (Permutation_in _ P). now apply nth_In.
    + now exists i'.
Qed.

Lemma output_is_fixed_up_to_ties_witness :
  ((exists lineIndex lineIndex',
      sort Libstdcxx.sort Integer true
        (map TEXT ["7b"; "x"; "7a"; " "; "3"]%string) = Thrown lineIndex /\
      sort reversing_sort Integer true
        (rev (map TEXT ["7b"; "x"; "7a"; " "; "3"]%string))
      = Thrown lineIndex') \/
   (exists sorted sorted',
      sort Libstdcxx.sort Integer true
        (map TEXT ["7b"; "x"; "7a"; " "; "3"]%string)
      = Returned
          (sorted ++ filter (is_empty Integer)
                       (map TEXT ["7b"; "x"; "7a"; " "; "3"]%string)) /\
      sort reversing_sort Integer true
        (rev (map TEXT ["7b"; "x"; "7a"; " "; "3"]%string))
      = Returned
          (sorted' ++ filter (is_empty Integer)
                        (rev (map TEXT ["7b"; "x"; "7a"; " "; "3"]%string))) /\
      Forall2 (fun a b => tied Integer a b = true) sorted sorted' /\
      Permutation
        (filter (is_empty Integer)
           (map TEXT ["7b"; "x"; "7a"; " "; "3"]%string))
        (filter (is_empty Integer)
           (rev (map TEXT ["7b"; "x"; "7a"; " "; "3"]%string))))) /\
  ((exists lineIndex lineIndex',
      sort Libstdcxx.sort Integer false (map TEXT ["1"; "-"]%string)
      = Thrown lineIndex /\
      sort stable_sort Integer false (rev (map TEXT ["1"; "-"]%string))
      = Thrown lineIndex') \/
   (exists sorted sorted',
      sort Libstdcxx.sort Integer false (map TEXT ["1"; "-"]%string)
      = Returned
          (filter (is_empty Integer) (map TEXT ["1"; "-"]%string) ++ sorted) /\
      sort stable_sort Integer false (rev (map TEXT ["1"; "-"]%string))
      = Returned
          (filter (is_empty Integer) (rev (map TEXT ["1"; "-"]%string))
           ++ sorted') /\
      Forall2 (fun a b => tied Integer a b = true) sorted sorted' /\
      Permutation
        (filter (is_empty Integer) (map TEXT ["1"; "-"]%string))
        (filter (is_empty Integer) (rev (map TEXT ["1"; "-"]%string))))).
Proof.
  split.
  - apply (output_is_fixed_up_to_ties Libstdcxx.sort reversing_sort
             LibstdcxxFacts.libstdcxx_sort_conforms reversing_sort_conforms
             Integer true (map TEXT ["7b"; "x"; "7a"; " "; "3"]%string)
             (rev (map TEXT ["7b"; "x"; "7a"; " "; "3"]%string))).
    apply Permutation_rev.
  - apply (output_is_fixed_up_to_ties Libstdcxx.sort stable_sort
             LibstdcxxFacts.libstdcxx_sort_conforms stable_sort_conforms
             Integer false (map TEXT ["1"; "-"]%string)
             (rev (map TEXT ["1"; "-"]%string))).
    apply Permutation_rev.
Defined.

(** X9.  When no two different lines of the input are tied, nothing is left
    open: every implementation of [std::sort] that meets the standard gives
    the same result, and the candidates of the descending output are those of
    the ascending output in reverse order. *)
Theorem untied_lines_fix_the_output (std_sort std_sort' : std_sort_t)
    (conforms : std_sort_spec std_sort)
    (conforms' : std_sort_spec std_sort') (sorter : ISorter)
    (lines : list generic_string) :
  (forall a b, In a lines -> In b lines -> tied sorter a b = true -> a = b) ->
  (forall isDescending,
     sort std_sort sorter isDescending lines
     = sort std_sort' sorter isDescending lines) /\
  (forall up_output down_output,
     sort std_sort sorter false lines = Returned up_output ->
     sort std_sort' sorter true lines = Returned down_output ->
     exists up,
       up_output = filter (is_empty sorter) lines ++ up /\
       down_output = rev up ++ filter (is_empty sorter) lines).
Proof.
  intros D.
  assert (Q : forall a b : list generic_string,
            (forall x, In x a -> In x lines) ->
            (forall x, In x b -> In x lines) ->
            Forall2 (fun x y => tied sorter x y = true) a b -> a = b).
  { intros a b Ha Hb F. apply Forall2_eq_list.
    apply (Forall2_impl_in (fun x y => tied sorter x y = true)); auto. }
  assert (In_cands : forall s : list generic_string,
            Permutation (filter (fun l => negb (is_empty sorter l)) lines) s ->
            forall x, In x s -> In x lines).
  { intros s Ps x Hx. apply (Permutation_in _ (Permutation_sym Ps)) in Hx.
    now apply filter_In in Hx. }
  split.
  - intros isDescending.
    destruct (sort std_sort sorter isDescending lines) as [output|i] eqn:H.
    + destruct (sort_returned _ conforms _ _ _ _ H)
        as [sorted [-> [Ps [S NF]]]].
      destruct (sort_returns std_sort' sorter isDescending lines NF)
        as [output' H'].
      destruct (sort_returned _ conforms' _ _ _ _ H')
        as [sorted' [-> [Ps' [S' _]]]].
      rewrite H'. f_equal. unfold assemble.
      rewrite (Q sorted sorted'); auto.
      * now apply In_cands.
      * now apply In_cands.
      * now apply (sort_arrangements sorter isDescending lines).
    + symmetry. apply sort_thrown. now apply sort_thrown in H.
  - intros up_output down_output Hu Hd.
    destruct (sort_returned _ conforms _ _ _ _ Hu)
      as [up [-> [Pu [Su NF]]]].
    destruct (sort_returned _ conforms' _ _ _ _ Hd)
      as [down [-> [Pd [Sd _]]]].
    destruct (sort_directions sorter lines up down NF Pu Pd Su Sd)
      as [F _].
    exists up. unfold assemble. split; [reflexivity|]. f_equal.
    rewrite (Q up (rev down)); auto.
    + now rewrite rev_involutive.
    + now apply In_cands.
    + intros x Hx. apply in_rev in Hx. now apply (In_cands down).
Qed.

Lemma untied_lines_fix_the_output_witness :
  (forall isDescending,
     sort Libstdcxx.sort Integer isDescending integer_example
     = sort stable_sort Integer isDescending integer_example) /\
  (forall up_output down_output,
     sort Libstdcxx.sort Integer false integer_example
     = Returned up_output ->
     sort stable_sort Integer true integer_example = Returned down_output ->
     exists up,
       up_output = filter (is_empty Integer) integer_example ++ up /\
       down_output = rev up ++ filter (is_empty Integer) integer_example).
Proof.
  apply (untied_lines_fix_the_output Libstdcxx.sort stable_sort
           LibstdcxxFacts.libstdcxx_sort_conforms stable_sort_conforms
           Integer integer_example).
  intros a b Ha Hb T.
  destruct Ha as [<-|[<-|[<-|[<-|[]]]]];
    destruct Hb as [<-|[<-|[<-|[<-|[]]]]];
    try reflexivity; vm_compute in T; discriminate T.
Defined.

(** X10.  Sorting the output once more moves tied lines only: the second
    run has an output too, whatever the implementation of [std::sort], and
    place by place its lines are those of the first output or lines tied with
    them. *)
Theorem sorting_again_moves_only_tied_lines (std_sort std_sort' : std_sort_t)
    (conforms : std_sort_spec std_sort)
    (conforms' : std_sort_spec std_sort') (sorter : ISorter)
    (isDescending : bool) (lines output : list generic_string) :
  sort std_sort sorter isDescending lines = Returned output ->
  exists output',
    sort std_sort' sorter isDescending output = Returned output' /\
    Forall2 (fun a b => a = b \/ tied sorter a b = true) output output'.
Proof.
  intros H.
  assert (P := sort_permutation _ conforms _ _ _ _ H).
  destruct (sort_returned _ conforms _ _ _ _ H) as [sorted [E [Ps [S NF]]]].
  assert (NF' : forall l, In l output -> conversion_fails sorter l = false).
  { intros l Hl. apply NF. now apply (Permutation_in _ (Permutation_sym P)). }
  destruct (sort_returns std_sort' sorter isDescending output NF')
    as [output' H'].
  destruct (sort_returned _ conforms' _ _ _ _ H')
    as [sorted' [E' [Ps' [S' _]]]].
  assert (Hs : forall x, In x sorted -> is_empty sorter x = false).
  { intros x Hx. apply (Permutation_in _ (Permutation_sym Ps)) in Hx.
    apply filter_In in Hx. destruct Hx as [_ Hx].
    now destruct (is_empty sorter x). }
  assert (He : forall x, In x (filter (is_empty sorter) lines) ->
                         negb (is_empty sorter x) = false).
  { intros x Hx. apply filter_In in Hx. destruct Hx as [_ ->]. reflexivity. }
  assert (E1 : filter (is_empty sorter) output
               = filter (is_empty sorter) lines).
  { rewrite E. unfold assemble.
    destruct (filter_app_disjoint (is_empty sorter) lines sorted Hs).
    now destruct isDescending. }
  assert (E2 : filter (fun l => negb (is_empty sorter l)) output = sorted).
  { rewrite E. unfold assemble.
    destruct isDescending; rewrite filter_app, (filter_none _ _ He).
    - rewrite app_nil_r. apply filter_all. intros x Hx.
      now rewrite (Hs x Hx).
    - simpl. apply filter_all. intros x Hx. now rewrite (Hs x Hx). }
  rewrite E1 in E'. rewrite E2 in Ps'.
  assert (F : Forall2 (fun a b => tied sorter a b = true) sorted sorted').
  { apply (sort_arrangements sorter isDescending lines); auto.
    apply (Permutation_trans Ps). exact Ps'. }
  exists output'. split; [exact H'|].
  assert (F' : Forall2 (fun a b => a = b \/ tied sorter a b = true)
                 sorted sorted').
  { apply (Forall2_impl_in (fun a b => tied sorter a b = true)); auto. }
  assert (Fe : Forall2 (fun a b => a = b \/ tied sorter a b = true)
                 (filter (is_empty sorter) lines)
                 (filter (is_empty sorter) lines)).
  { apply Forall2_refl_in. auto. }
  rewrite E, E'. unfold assemble.
  destruct isDescending; now apply Forall2_app.
Qed.

Lemma sorting_again_moves_only_tied_lines_witness :
  exists output',
    sort stable_sort Integer false (map TEXT [""; "-5"; "2"; "10"]%string)
    = Returned output' /\
    Forall2 (fun a b => a = b \/ tied Integer a b = true)
      (map TEXT [""; "-5"; "2"; "10"]%string) output'.
Proof.
  apply (sorting_again_moves_only_tied_lines Libstdcxx.sort stable_sort
           LibstdcxxFacts.libstdcxx_sort_conforms stable_sort_conforms
           Integer false integer_example).
  vm_compute. reflexivity.
Defined.

(** ** The guard of the conversion *)

Lemma blank_is_space (c : wchar_t) : wmem c blanks = true -> isspace c = true.
Proof.
  unfold wmem, blanks, isspace. cbn [existsb]. intros H.
  repeat (apply orb_true_iff in H; destruct H as [H|H]);
    try discriminate H; apply N.eqb_eq in H; subst c; reflexivity.
Qed.

Lemma blank_text_is_skipped (input : generic_string) :
  find_first_not_of input blanks = None -> skip_whitespace input = [].
Proof.
  induction input as [|c rest IH];
    cbn [find_first_not_of skip_whitespace]; [reflexivity|].
  destruct (wmem c blanks) eqn:B; [|intros H; discriminate H].
  rewrite (blank_is_space c B). intros H. apply IH.
  now destruct (find_first_not_of rest blanks).
Qed.

(** X11.  The test [considerStringEmpty] is what keeps blank lines from
    failing the whole sort: on a text that [considerStringEmpty] accepts,
    hence on the prepared text of every line that [NumericSorter::sort] sets
    aside, the conversion of [IntegerSorter] throws
    [std::invalid_argument]. *)
Theorem empty_text_does_not_convert (input : generic_string) :
  considerStringEmpty input = true ->
  convertStringToNumber IntegerSorter input = invalid_argument.
Proof.
  unfold considerStringEmpty. intros H.
  destruct (find_first_not_of input blanks) eqn:E; [discriminate|].
  simpl. unfold stoll. rewrite (blank_text_is_skipped input E). reflexivity.
Qed.

Lemma empty_text_does_not_convert_witness :
  convertStringToNumber IntegerSorter (TEXT "   ") = invalid_argument.
Proof.
  apply (empty_text_does_not_convert (TEXT "   ")). vm_compute. reflexivity.
Defined.
